(** * Shard ownership and dynamic configuration of the history service

    Two parts of the server are covered.

    - [DynamicConfig]: the constraint lookup and the value conversions of
      [common/dynamicconfig/collection.go], embedded function by function.
    - [Shard]: the history shard [Context].  The repository gives its
      contract as a Go interface; the operations behind it are modelled from
      the component design of the specification (sections 4.1 to 4.6). *)

From stdpp Require Import gmap strings list sorting.
From Stdlib Require Import ZArith Lia.

Set Warnings "-register-all".
Local Open Scope Z_scope.

(** ** Go machine integers *)

(** Two's-complement reduction of [z] to a signed integer of [bits] bits:
    what a Go conversion [intN(x)] or an overflowing operation leaves. *)
Definition wrap_signed (bits z : Z) : Z :=
  (z + 2 ^ (bits - 1)) mod 2 ^ bits - 2 ^ (bits - 1).

(** Go's [int] is 32 or 64 bits wide, according to the target. *)
Inductive Arch : Set := Arch32 | Arch64.

Definition int_bits (a : Arch) : Z :=
  match a with Arch32 => 32 | Arch64 => 64 end.

Module DynamicConfig.

(** [time.Duration] is an [int64] count of nanoseconds. *)
Definition Duration := Z.
Definition Second : Duration := 1000000000.

(** Error values.  [errKeyNotPresent] and [errNoMatchingConstraint] are the
    two package-level sentinels; the others are built where they are
    returned. *)
Inductive error : Type :=
  | errKeyNotPresent
  | errNoMatchingConstraint
  | errorsNew (msg : string)
  | fmtErrorf (format : string) (cause : error)
  | strconvSyntaxError (fn str : string)
  | errForeign (descr : string).

#[global] Instance error_eq_dec : EqDecision error.
Proof. solve_decision. Defined.

(** [strconv.ParseBool] of the Go standard library. *)
Definition ParseBool (str : string) : bool * option error :=
  if bool_decide (str ∈ ["1"; "t"; "T"; "true"; "TRUE"; "True"]%string)
  then (true, None)
  else if bool_decide (str ∈ ["0"; "f"; "F"; "false"; "FALSE"; "False"]%string)
  then (false, None)
  else (false, Some (strconvSyntaxError "ParseBool" str)).

(** What the conversions take from the Go runtime and from the packages
    around them: the two floating-point types with the operations used on
    them, the word size of the build, and
    [timestamp.ParseDurationDefaultSeconds] of
    [common/primitives/timestamp]. *)
Class GoRuntime : Type := {
  float32 : Type;
  float64 : Type;
  f32_to_f64 : float32 → float64;        (* float64(x) for x float32 *)
  f64_of_Z : Z → float64;                (* float64(i) for an integer i *)
  f64_mul : float64 → float64 → float64;
  f64_to_int64 : float64 → Z;            (* int64(x) for x float64 *)
  arch : Arch;
  ParseDurationDefaultSeconds : string → Duration * option error;
}.

Section Values.
Context `{GoRuntime}.

(** A value of interface type [any], by dynamic type.  A number carries its
    mathematical value.  [AMap None] is a nil [map[string]any]; [AOther]
    stands for a value of any dynamic type not listed (structs, slices,
    named types), which the conversions tell apart by type only. *)
Inductive GoAny : Type :=
  | ANil
  | ABool (b : bool)
  | AInt (z : Z)
  | AInt8 (z : Z)
  | AInt16 (z : Z)
  | AInt32 (z : Z)
  | AInt64 (z : Z)
  | AUint (z : Z)
  | AUint8 (z : Z)
  | AUint16 (z : Z)
  | AUint32 (z : Z)
  | AUint64 (z : Z)
  | AUintptr (z : Z)
  | AFloat32 (f : float32)
  | AFloat64 (f : float64)
  | AString (s : string)
  | ADuration (d : Duration)
  | AMap (m : option (gmap string GoAny))
  | AOther (type_name : string).

(** The integer carried by a value of one of Go's eleven integer types. *)
Definition integerValue (v : GoAny) : option Z :=
  match v with
  | AInt z | AInt8 z | AInt16 z | AInt32 z | AInt64 z
  | AUint z | AUint8 z | AUint16 z | AUint32 z | AUint64 z | AUintptr z => Some z
  | _ => None
  end.

Definition floatValue (v : GoAny) : option float64 :=
  match v with
  | AFloat32 f => Some (f32_to_f64 f)
  | AFloat64 f => Some f
  | _ => None
  end.

(** The conversion [int(x)]. *)
Definition to_int (z : Z) : Z := wrap_signed (int_bits arch) z.

Definition convertInt (val : GoAny) : Z * option error :=
  match val with
  | AInt val => (to_int val, None)
  | AInt8 val => (to_int val, None)
  | AInt16 val => (to_int val, None)
  | AInt32 val => (to_int val, None)
  | AInt64 val => (to_int val, None)
  | AUint val => (to_int val, None)
  | AUint8 val => (to_int val, None)
  | AUint16 val => (to_int val, None)
  | AUint32 val => (to_int val, None)
  | AUint64 val => (to_int val, None)
  | AUintptr val => (to_int val, None)
  | _ => (0, Some (errorsNew "value type is not int"))
  end.

Definition float64_zero : float64 := f64_of_Z 0.

Definition convertFloat (val : GoAny) : float64 * option error :=
  match val with
  | AFloat32 val => (f32_to_f64 val, None)
  | AFloat64 val => (val, None)
  | _ =>
      match convertInt val with
      | (ival, None) => (f64_of_Z ival, None)
      | (_, Some _) => (float64_zero, Some (errorsNew "value type is not float64"))
      end
  end.

Definition convertDuration (val : GoAny) : Duration * option error :=
  match val with
  | ADuration v => (v, None)
  | AString v =>
      match ParseDurationDefaultSeconds v with
      | (_, Some err) => (0, Some (fmtErrorf "failed to parse duration: %v" err))
      | (d, None) => (d, None)
      end
  | _ =>
      (* treat numeric values as seconds *)
      match convertInt val with
      | (ival, None) => (wrap_signed 64 (ival * Second), None)
      | (_, Some _) =>
          match convertFloat val with
          | (fval, None) => (f64_to_int64 (f64_mul fval (f64_of_Z Second)), None)
          | (_, Some _) => (0, Some (errorsNew "value not convertible to Duration"))
          end
      end
  end.

Definition convertString (val : GoAny) : string * option error :=
  match val with
  | AString stringVal => (stringVal, None)
  | _ => (EmptyString, Some (errorsNew "value type is not string"))
  end.

Definition convertBool (val : GoAny) : bool * option error :=
  match val with
  | ABool v => (v, None)
  | AString v => ParseBool v
  | _ => (false, Some (errorsNew "value type is not bool"))
  end.

Definition convertMap (val : GoAny) : option (gmap string GoAny) * option error :=
  match val with
  | AMap mapVal => (mapVal, None)
  | _ => (None, Some (errorsNew "value type is not map"))
  end.

End Values.

(** The types of the package that the lookup is written over: setting keys,
    and the comparable struct [Constraints] with its zero value
    [Constraints{}]. *)
Class ConfigTypes : Type := {
  Key : Type;
  Constraints : Type;
  Constraints_eq_dec :: EqDecision Constraints;
  zeroConstraints : Constraints;
}.

Section Lookup.
Context `{GoRuntime} `{ConfigTypes}.

Record ConstrainedValue : Type := {
  cvConstraints : Constraints;
  cvValue : GoAny;
}.

Record TypedConstrainedValue (T : Type) : Type := {
  tcvConstraints : Constraints;
  tcvValue : T;
}.
Arguments tcvConstraints {T} _.
Arguments tcvValue {T} _.

Inductive LogLevel : Set := LevelDebug | LevelWarn.

(** One line handed to the logger: level, message, and the key and error
    tags. *)
Record LogEntry : Type := {
  logLevel : LogLevel;
  logMsg : string;
  logKey : Key;
  logError : error;
}.

(** [Collection]: the client (its [GetValue]), what the logger has been
    given so far, oldest first, and the error counter. *)
Record Collection : Type := {
  client : Key → list ConstrainedValue;
  logger : list LogEntry;
  errCount : Z;
}.

Definition errCountLogThreshold : Z := 1000.

Definition NewCollection (client : Key → list ConstrainedValue) : Collection :=
  {| client := client; logger := []; errCount := -1 |}.

(** [atomic.AddInt64(&c.errCount, 1)], then the comparison on the new
    count; [%] is Go's truncated remainder. *)
Definition throttleLog (c : Collection) : bool * Collection :=
  let errCount' := wrap_signed 64 (errCount c + 1) in
  ((errCount' <? errCountLogThreshold) || (Z.rem errCount' errCountLogThreshold =? 0),
   {| client := client c; logger := logger c; errCount := errCount' |}).

Definition logTo (c : Collection) (e : LogEntry) : Collection :=
  {| client := client c; logger := logger c ++ [e]; errCount := errCount c |}.

Definition HasKey (c : Collection) (key : Key) : bool :=
  bool_decide (0 < length (client c key))%nat.

Section Generic.
Context {T : Type}.
(** A [T] stored in an [any]. *)
Variable box : T → GoAny.

(** The inner loop over [cvs]. *)
Fixpoint matchCVs (m : Constraints) (cvs : list ConstrainedValue) : option GoAny :=
  match cvs with
  | [] => None
  | cv :: cvs' =>
      if decide (m = cvConstraints cv) then Some (cvValue cv) else matchCVs m cvs'
  end.

(** The inner loop over [defaultCVs]. *)
Fixpoint matchDefaultCVs (m : Constraints) (defaultCVs : list (TypedConstrainedValue T))
  : option GoAny :=
  match defaultCVs with
  | [] => None
  | cv :: defaultCVs' =>
      if decide (m = tcvConstraints cv) then Some (box (tcvValue cv))
      else matchDefaultCVs m defaultCVs'
  end.

(** The outer loop over [precedence]. *)
Fixpoint matchPrecedence (cvs : list ConstrainedValue)
    (defaultCVs : list (TypedConstrainedValue T)) (precedence : list Constraints)
  : option GoAny :=
  match precedence with
  | [] => None
  | m :: precedence' =>
      match matchCVs m cvs with
      | Some v => Some v
      | None =>
          match matchDefaultCVs m defaultCVs with
          | Some v => Some v
          | None => matchPrecedence cvs defaultCVs precedence'
          end
      end
  end.

Definition findMatch (cvs : list ConstrainedValue)
    (defaultCVs : list (TypedConstrainedValue T)) (precedence : list Constraints)
  : GoAny * option error :=
  if decide (length cvs + length defaultCVs = 0)%nat then (ANil, Some errKeyNotPresent)
  else
    match matchPrecedence cvs defaultCVs precedence with
    | Some v => (v, None)
    | None =>
        (* key is present but no constraint section matches *)
        (ANil, Some errNoMatchingConstraint)
    end.

(** [cdef] is a slice: [None] is the nil slice, [Some l] a slice that is not
    nil (empty or not). *)
Definition matchAndConvert (c : Collection) (key : Key) (def : T)
    (cdef : option (list (TypedConstrainedValue T)))
    (convert : GoAny → T * option error) (precedence : list Constraints)
  : T * Collection :=
  let cvs := client c key in
  let defaultCVs :=
    match cdef with
    | None => [ {| tcvConstraints := zeroConstraints; tcvValue := def |} ]
    | Some l => l
    end in
  let '(val, matchErr) := findMatch cvs defaultCVs precedence in
  let '(val, c) :=
    match matchErr with
    | Some err =>
        let '(b, c) := throttleLog c in
        let c :=
          if b then
            logTo c {| logLevel := LevelDebug;
                       logMsg := "No such key in dynamic config, using default";
                       logKey := key; logError := err |}
          else c in
        (* couldn't find a constrained match, use default *)
        (box def, c)
    | None => (val, c)
    end in
  let '(typedVal, convertErr) := convert val in
  let '(typedVal, convertErr, c) :=
    match convertErr, matchErr with
    | Some err, None =>
        let '(b, c) := throttleLog c in
        let c :=
          if b then
            logTo c {| logLevel := LevelWarn;
                       logMsg := "Failed to convert value, using default";
                       logKey := key; logError := err |}
          else c in
        let '(typedVal, convertErr) := convert (box def) in
        (typedVal, convertErr, c)
    | _, _ => (typedVal, convertErr, c)
    end in
  let c :=
    match convertErr with
    | Some err =>
        logTo c {| logLevel := LevelWarn;
                   logMsg := "Can't convert default value (this is a bug; fix server code)";
                   logKey := key; logError := err |}
    | None => c
    end in
  (* Return typedVal anyway since we have to return something. *)
  (typedVal, c).

(** *** The lookup as the contract words it

    [m] matches nothing in either list. *)
Definition unmatched (m : Constraints) (cvs : list ConstrainedValue)
    (defaultCVs : list (TypedConstrainedValue T)) : Prop :=
  Forall (λ cv, cvConstraints cv ≠ m) cvs ∧
  Forall (λ cv, tcvConstraints cv ≠ m) defaultCVs.

(** [v] is the value of the first entry whose constraints are [m], the
    client's values being looked at before the typed defaults. *)
Inductive firstMatchAt (m : Constraints) (cvs : list ConstrainedValue)
    (defaultCVs : list (TypedConstrainedValue T)) (v : GoAny) : Prop :=
  | firstInClient l1 cv l2 :
      cvs = l1 ++ cv :: l2 →
      Forall (λ c, cvConstraints c ≠ m) l1 →
      cvConstraints cv = m →
      v = cvValue cv →
      firstMatchAt m cvs defaultCVs v
  | firstInDefaults l1 cv l2 :
      Forall (λ c, cvConstraints c ≠ m) cvs →
      defaultCVs = l1 ++ cv :: l2 →
      Forall (λ c, tcvConstraints c ≠ m) l1 →
      tcvConstraints cv = m →
      v = box (tcvValue cv) →
      firstMatchAt m cvs defaultCVs v.

(** The default list [matchAndConvert] looks in. *)
Definition defaultsOf (def : T) (cdef : option (list (TypedConstrainedValue T)))
  : list (TypedConstrainedValue T) :=
  match cdef with
  | None => [ {| tcvConstraints := zeroConstraints; tcvValue := def |} ]
  | Some l => l
  end.

End Generic.
End Lookup.

Arguments tcvConstraints {_ T} _.
Arguments tcvValue {_ T} _.
Arguments Build_TypedConstrainedValue {_ T} _ _.

(** *** The decode hook and repeated throttling *)

(** A [reflect.Type] as the decode hook looks at it: the type of
    [time.Duration], or another type, by name. *)
Inductive ReflectType : Type :=
  | TypeOfDuration
  | TypeOfOther (name : string).

Section Hook.
Context `{GoRuntime}.

(** [return convertDuration(data)] stores the [time.Duration] result in the
    hook's [any] result, also when it comes with an error. *)
Definition mapstructureHookDuration (f t : ReflectType) (data : GoAny)
  : GoAny * option error :=
  match t with
  | TypeOfOther _ => (data, None)
  | TypeOfDuration => let '(d, err) := convertDuration data in (ADuration d, err)
  end.

End Hook.

Section Repeated.
Context `{GoRuntime} `{ConfigTypes}.

(** [n] calls of [throttleLog] one after the other: their results, first
    call first, and the Collection they leave. *)
Fixpoint throttleLogs (n : nat) (c : Collection) : list bool * Collection :=
  match n with
  | O => ([], c)
  | S n' =>
      let '(b, c') := throttleLog c in
      let '(bs, c'') := throttleLogs n' c' in
      (b :: bs, c'')
  end.

(** Whether the [n]-th error (counted from 0) is let through to the log. *)
Definition logged (n : Z) : bool :=
  (n <? errCountLogThreshold) || (n mod errCountLogThreshold =? 0).

(** The lookup of [matchAndConvert] found a value and the value
    converted. *)
Definition matchedAndConverted {T : Type} (box : T → GoAny) (c : Collection) (key : Key)
    (def : T) (cdef : option (list (TypedConstrainedValue T)))
    (convert : GoAny → T * option error) (precedence : list Constraints) : bool :=
  match findMatch box (client c key) (defaultsOf def cdef) precedence with
  | (val, None) => match convert val with (_, None) => true | (_, Some _) => false end
  | (_, Some _) => false
  end.

(** The last line [matchAndConvert] writes when the default itself does not
    convert. *)
Definition cannotConvertDefault (key : Key) (err : error) : LogEntry :=
  {| logLevel := LevelWarn;
     logMsg := "Can't convert default value (this is a bug; fix server code)";
     logKey := key; logError := err |}.

End Repeated.

(** *** An instance to run the functions on

    Floating-point numbers stood for by integers (enough to run the integer
    and string paths), a 64-bit build, a duration parser that reads nothing;
    keys and constraints that are namespace names. *)
Definition exampleRuntime : GoRuntime :=
  {| float32 := Z; float64 := Z;
     f32_to_f64 := λ x, x; f64_of_Z := λ x, x; f64_mul := Z.mul; f64_to_int64 := λ x, x;
     arch := Arch64;
     ParseDurationDefaultSeconds := λ s, (0, Some (errForeign s)) |}.

Definition exampleTypes : ConfigTypes :=
  {| Key := string; Constraints := string; zeroConstraints := EmptyString |}.

Section ExampleValues.
#[local] Existing Instance exampleRuntime.
#[local] Existing Instance exampleTypes.

Definition nsValue (ns : string) (v : Z) : ConstrainedValue :=
  {| cvConstraints := ns; cvValue := AInt v |}.

Definition nsDefault (ns : string) (v : Z) : TypedConstrainedValue Z :=
  {| tcvConstraints := ns; tcvValue := v |}.

End ExampleValues.

End DynamicConfig.

Module Shard.

(** ** Data model (specification, sections 3 and 7)

    The repository declares the shard [Context] as an interface; the types
    behind it are those of the specification's data model.  Range IDs and
    task IDs are [int64] (interface: [GetRangeID() int64],
    [GenerateTaskID() (int64, error)]; specification, section 3): they are
    carried as integers and every sum and product on them is reduced to 64
    bits.  Instants of time are integers. *)


(** [a + b] and [a * b] on [int64]. *)
Definition add64 (a b : Z) : Z := wrap_signed 64 (a + b).
Definition mul64 (a b : Z) : Z := wrap_signed 64 (a * b).

(** Modelled from the spec: the error taxonomy of section 7 (the error
    types of the implementation are not in the sources). *)
Inductive Error : Set := OwnershipLost | NotFound | Transient | InvalidArgument.

(** Modelled from the spec: the states of the Context of section 4.6 (the
    implementation that holds them is not in the sources). *)
Inductive Status : Set := Initializing | Active | Invalid | Stopped.

#[global] Instance Status_eq_dec : EqDecision Status.
Proof. solve_decision. Defined.

Inductive Category : Set :=
  CategoryTransfer | CategoryTimer | CategoryVisibility | CategoryReplication.

#[global] Instance Category_eq_dec : EqDecision Category.
Proof. solve_decision. Defined.

Definition Category_to_nat (c : Category) : nat :=
  match c with
  | CategoryTransfer => 0 | CategoryTimer => 1
  | CategoryVisibility => 2 | CategoryReplication => 3
  end%nat.

Definition Category_of_nat (n : nat) : Category :=
  match n with
  | 0 => CategoryTransfer | 1 => CategoryTimer
  | 2 => CategoryVisibility | _ => CategoryReplication
  end%nat.

#[global] Instance Category_countable : Countable Category.
Proof.
  apply (inj_countable' Category_to_nat Category_of_nat).
  intros []; reflexivity.
Defined.

(** Modelled from the spec: the queue state of section 3, whose record
    type is declared outside the sources.  Per reader: the acknowledged
    watermark and the sparse completed ranges below it. *)
Record ReaderState : Type := {
  ackWatermark : Z;
  completedRanges : list (Z * Z);
}.

(** Per category: the exclusive high watermark and the readers. *)
Record QueueState : Type := {
  exclusiveHighWatermark : Z;
  readerStates : gmap Z ReaderState;
}.

(** An acknowledged task ID with the time of the acknowledgement. *)
Record AckInfo : Type := {
  ackTaskID : Z;
  ackTimestamp : Z;
}.

(** Modelled from the spec: the part of the shard record the trackers keep
    (sections 3 and 6; the record type is declared outside the sources). *)
Record ShardInfo : Type := {
  queueStates : gmap Category QueueState;
  dlqAckLevels : gmap string Z;
  readerInfos : gmap Z AckInfo;
}.

(** Modelled from the spec: the persisted shard record of the storage
    engine (section 6; the engine is not in the sources). *)
Record Store : Type := {
  persistedRangeID : Z;
  persistedOwner : string;
  persistedInfo : ShardInfo;
}.

(** Modelled from the spec: the in-memory state behind the [Context]
    interface, with the attributes of Shard in section 3 (the implementing
    struct is not in the sources). *)
Record Context : Type := {
  shardID : Z;
  clusterID : Z;
  owner : string;
  rangeSize : Z;
  status : Status;
  rangeID : Z;
  taskCursor : Z;          (* next task ID to hand out *)
  blockEnd : Z;            (* exclusive end of the owned block *)
  shardInfo : ShardInfo;   (* cached copy of the tracked state *)
  remoteClusters : gmap string AckInfo;
}.

Inductive ExecutionOp : Set :=
  | CreateWorkflowExecution | UpdateWorkflowExecution
  | ConflictResolveWorkflowExecution | SetWorkflowExecution
  | GetCurrentExecution | GetWorkflowExecution | DeleteWorkflowExecution
  | AppendHistoryEvents | AddTasks.

(** A round trip of the Context to the storage engine; each carries the
    range ID the Context presents as its fence. *)
Inductive Request : Type :=
  | ReqReadShard
  | ReqUpdateShard (fence : Z)
  | ReqPresentRange (fence : Z)
  | ReqExecution (op : ExecutionOp) (fence : Z).

(** The Context, the storage engine's record, and the round trips the
    Context has made so far, oldest first. *)
Record World : Type := {
  ctx : Context;
  store : Store;
  requests : list Request;
}.

(** Every method of the interface whose signature has an [error] result
    ([shard.Context], lines 71 to 118 of the declaration), and the three
    methods without one that the claims speak of, with their arguments. *)
Inductive Call : Type :=
  | GetRemoteAdminClient (cluster : string)
  | GetEngine
  | AssertOwnership
  | NewVectorClock
  | GenerateTaskID
  | GenerateTaskIDs (number : Z)
  | SetQueueState (category : Category) (tasksCompleted : Z) (state : QueueState)
  | UpdateReplicationQueueReaderState (readerID : Z) (readerState : ReaderState)
  | UpdateReplicatorDLQAckLevel (sourceCluster : string) (ackLevel : Z)
  | UpdateRemoteClusterInfo (cluster : string) (ackID ackTime : Z)
  | UpdateRemoteReaderInfo (readerID : Z) (ackID ackTime : Z)
  | GetReplicationStatus (clusters : list string)
  | Execution (op : ExecutionOp)
  | AddSpeculativeWorkflowTaskTimeoutTask
  | UnloadForOwnershipLost
  | FinishStop.

(** Whether the method's Go signature has an [error] result, read off the
    interface declaration. *)
Definition returnsError (c : Call) : bool :=
  match c with
  | GetRemoteAdminClient _ => true                  (* (string) (client, error) *)
  | GetEngine => true                               (* (ctx) (Engine, error) *)
  | AssertOwnership => true                         (* (ctx) error *)
  | NewVectorClock => true                          (* () (VectorClock pointer, error) *)
  | GenerateTaskID => true                          (* () (int64, error) *)
  | GenerateTaskIDs _ => true                       (* (number int) ([]int64, error) *)
  | SetQueueState _ _ _ => true                     (* (...) error *)
  | UpdateReplicationQueueReaderState _ _ => true   (* (...) error *)
  | UpdateReplicatorDLQAckLevel _ _ => true         (* (...) error *)
  | UpdateRemoteClusterInfo _ _ _ => false          (* (...) with no result *)
  | UpdateRemoteReaderInfo _ _ _ => true            (* (...) error *)
  | GetReplicationStatus _ => true                  (* ([]string) (map, map, error) *)
  | Execution _ => true                             (* (...) (response, error) or error *)
  | AddSpeculativeWorkflowTaskTimeoutTask => true   (* (task) error *)
  | UnloadForOwnershipLost => false                 (* () *)
  | FinishStop => false                             (* () *)
  end.

Inductive Value : Type :=
  | VUnit
  | VInt (z : Z)
  | VInts (l : list Z)
  | VClock (cluster shard clock : Z)
  | VHandle
  | VAcks (acks : list (string * option AckInfo)).

(** What a call hands back: its results with a nil error (or its results,
    for a method without an error result), or an error. *)
Inductive Result : Type :=
  | Returned (v : Value)
  | Failed (e : Error).

(** Something outside the calls on the Context: its controller loading the
    record and acquiring the lease, or another owner acquiring the shard. *)
Inductive Event : Type :=
  | EvCall (c : Call)
  | EvLoadShard
  | EvAcquire
  | EvCompetingAcquire (newOwner : string).

(** ** Updates of the records *)

Definition setStatus (s : Status) (c : Context) : Context :=
  {| shardID := shardID c; clusterID := clusterID c; owner := owner c;
     rangeSize := rangeSize c; status := s; rangeID := rangeID c;
     taskCursor := taskCursor c; blockEnd := blockEnd c;
     shardInfo := shardInfo c; remoteClusters := remoteClusters c |}.

(** The block of range [r]: from [r * rangeSize] up to
    [r * rangeSize + rangeSize], in [int64]. *)
Definition setRange (r : Z) (c : Context) : Context :=
  {| shardID := shardID c; clusterID := clusterID c; owner := owner c;
     rangeSize := rangeSize c; status := status c; rangeID := r;
     taskCursor := mul64 r (rangeSize c);
     blockEnd := add64 (mul64 r (rangeSize c)) (rangeSize c);
     shardInfo := shardInfo c; remoteClusters := remoteClusters c |}.

Definition setLoaded (r : Z) (i : ShardInfo) (c : Context) : Context :=
  {| shardID := shardID c; clusterID := clusterID c; owner := owner c;
     rangeSize := rangeSize c; status := status c; rangeID := r;
     taskCursor := taskCursor c; blockEnd := blockEnd c;
     shardInfo := i; remoteClusters := remoteClusters c |}.

Definition setCursor (n : Z) (c : Context) : Context :=
  {| shardID := shardID c; clusterID := clusterID c; owner := owner c;
     rangeSize := rangeSize c; status := status c; rangeID := rangeID c;
     taskCursor := n; blockEnd := blockEnd c;
     shardInfo := shardInfo c; remoteClusters := remoteClusters c |}.

Definition setShardInfo (i : ShardInfo) (c : Context) : Context :=
  {| shardID := shardID c; clusterID := clusterID c; owner := owner c;
     rangeSize := rangeSize c; status := status c; rangeID := rangeID c;
     taskCursor := taskCursor c; blockEnd := blockEnd c;
     shardInfo := i; remoteClusters := remoteClusters c |}.

Definition setRemoteClusters (m : gmap string AckInfo) (c : Context) : Context :=
  {| shardID := shardID c; clusterID := clusterID c; owner := owner c;
     rangeSize := rangeSize c; status := status c; rangeID := rangeID c;
     taskCursor := taskCursor c; blockEnd := blockEnd c;
     shardInfo := shardInfo c; remoteClusters := m |}.

Definition setQueueStates (m : gmap Category QueueState) (i : ShardInfo) : ShardInfo :=
  {| queueStates := m; dlqAckLevels := dlqAckLevels i; readerInfos := readerInfos i |}.

Definition setDlqAckLevels (m : gmap string Z) (i : ShardInfo) : ShardInfo :=
  {| queueStates := queueStates i; dlqAckLevels := m; readerInfos := readerInfos i |}.

Definition setReaderInfos (m : gmap Z AckInfo) (i : ShardInfo) : ShardInfo :=
  {| queueStates := queueStates i; dlqAckLevels := dlqAckLevels i; readerInfos := m |}.

Definition withCtx (c : Context) (w : World) : World :=
  {| ctx := c; store := store w; requests := requests w |}.

Definition sent (r : Request) (w : World) : World :=
  {| ctx := ctx w; store := store w; requests := requests w ++ [r] |}.

(** ** Operations (specification, sections 4.1 to 4.6) *)

(** Modelled from the spec: the state check every operation of the
    [Context] implementation that can fail starts with (the implementation
    is not part of the sources; sections 4.6 and 7).  An [Invalid] or
    [Stopped] Context fails with [OwnershipLost]; before the lease is
    acquired only setup is allowed, and a call is turned away as
    [Transient]. *)
Definition errorByState (c : Context) : option Error :=
  match status c with
  | Initializing => Some Transient
  | Active => None
  | Invalid | Stopped => Some OwnershipLost
  end.

Definition gated (w : World) (k : World → Result * World) : Result * World :=
  match errorByState (ctx w) with
  | Some e => (Failed e, w)
  | None => k w
  end.

(** Modelled from the spec: the storage engine's conditional write, which
    the engine (not in the sources) accepts only when the caller's range ID
    is the persisted one (section 3, invariant of Shard; section 6). *)
Definition conditionalUpdate (fence : Z) (f : Store → Store) (st : Store) : option Store :=
  if decide (persistedRangeID st = fence) then Some (f st) else None.

(** Modelled from the spec: the controller's read of the persisted record
    that starts an acquisition (section 3, lifecycle of Shard; the
    controller is not in the sources). *)
Definition loadShard (w : World) : World :=
  match status (ctx w) with
  | Initializing =>
      sent ReqReadShard
        (withCtx (setLoaded (persistedRangeID (store w)) (persistedInfo (store w)) (ctx w)) w)
  | _ => w
  end.

(** Modelled from the spec: [AcquireOrRenew] of the Lease/Range Allocator
    (section 4.1; the implementation is not part of the sources).  The new
    range ID is the one in memory plus one, written on condition that the
    persisted one is still the one in memory.  On success the Context is
    [Active] and its cursor is at the start of the new block; on failure it
    is [Invalid]. *)
Definition AcquireOrRenew (w : World) : option Error * World :=
  let c := ctx w in
  let newRangeID := add64 (rangeID c) 1 in
  let w := sent (ReqUpdateShard (rangeID c)) w in
  match
    conditionalUpdate (rangeID c)
      (λ st, {| persistedRangeID := newRangeID; persistedOwner := owner c;
                persistedInfo := persistedInfo st |})
      (store w)
  with
  | Some st =>
      (None, {| ctx := setStatus Active (setRange newRangeID c); store := st;
                requests := requests w |})
  | None => (Some OwnershipLost, withCtx (setStatus Invalid c) w)
  end.

(** Modelled from the spec: lease acquisition by the controller (sections
    3 and 4.1), possible from [Initializing] only. *)
Definition acquire (w : World) : World :=
  match status (ctx w) with
  | Initializing => snd (AcquireOrRenew w)
  | _ => w
  end.

(** Modelled from the spec: one step of the Task-ID Generator (sections 4.1
    and 4.2; the implementation is not part of the sources).  ID generation
    presents the range ID to the storage engine as its fence, and a
    superseded range serves nothing: the Context becomes [Invalid].  Inside
    the block the cursor is returned and advanced; at the top of the block
    the range is renewed first and the cursor resumes from the new block's
    start. *)
Definition generateTaskIDLocked (w : World) : (Z + Error) * World :=
  let w := sent (ReqPresentRange (rangeID (ctx w))) w in
  if decide (persistedRangeID (store w) = rangeID (ctx w)) then
    let '(err, w) :=
      if decide (taskCursor (ctx w) < blockEnd (ctx w)) then (None, w)
      else AcquireOrRenew w in
    match err with
    | Some e => (inr e, w)
    | None =>
        (inl (taskCursor (ctx w)),
         withCtx (setCursor (add64 (taskCursor (ctx w)) 1) (ctx w)) w)
    end
  else (inr OwnershipLost, withCtx (setStatus Invalid (ctx w)) w).

(** Modelled from the spec: the loop of [GenerateTaskIDs(n)] (section 4.2),
    the next [n] identifiers one after the other; an error ends it. *)
Fixpoint generateTaskIDsLocked (n : nat) (w : World) : (list Z + Error) * World :=
  match n with
  | O => (inl [], w)
  | S n' =>
      match generateTaskIDLocked w with
      | (inr e, w') => (inr e, w')
      | (inl id, w') =>
          match generateTaskIDsLocked n' w' with
          | (inl ids, w'') => (inl (id :: ids), w'')
          | (inr e, w'') => (inr e, w'')
          end
      end
  end.

(** Modelled from the spec: the fenced write of the tracked state (sections
    4.4 and 4.5; the implementation is not part of the sources), accepted
    when the range ID in memory is the persisted one; a rejection makes the
    Context [Invalid]. *)
Definition persistShardInfo (i : ShardInfo) (w : World) : Result * World :=
  let c := ctx w in
  let w := sent (ReqUpdateShard (rangeID c)) w in
  match
    conditionalUpdate (rangeID c)
      (λ st, {| persistedRangeID := persistedRangeID st;
                persistedOwner := persistedOwner st; persistedInfo := i |})
      (store w)
  with
  | Some st =>
      (Returned VUnit, {| ctx := setShardInfo i c; store := st; requests := requests w |})
  | None => (Failed OwnershipLost, withCtx (setStatus Invalid c) w)
  end.

(** Modelled from the spec: a fenced round trip that leaves the shard
    record as it is (the execution pass-through of section 6, and the
    re-verification of the range of section 5). *)
Definition fencedRoundTrip (r : Request) (w : World) : Result * World :=
  let w := sent r w in
  if decide (persistedRangeID (store w) = rangeID (ctx w)) then (Returned VUnit, w)
  else (Failed OwnershipLost, withCtx (setStatus Invalid (ctx w)) w).

(** Modelled from the spec: a stale acknowledgement (sections 3 and 4.5):
    its level or its time is below the recorded one.  It is ignored, not
    applied. *)
Definition staleAck (recorded : option AckInfo) (ackID ackTime : Z) : bool :=
  match recorded with
  | None => false
  | Some r => (ackID <? ackTaskID r) || (ackTime <? ackTimestamp r)
  end.

Definition staleLevel (recorded : option Z) (ackLevel : Z) : bool :=
  match recorded with
  | None => false
  | Some r => ackLevel <? r
  end.

(** Modelled from the spec: a queue state that carries a lower watermark
    than the recorded one (sections 3 and 8): some reader of the recorded
    state has a lower watermark in the new state, or none at all. *)
Definition keepsReader (new : QueueState) (r : Z) (old : ReaderState) : bool :=
  match readerStates new !! r with
  | Some rs => bool_decide (ackWatermark old ≤ ackWatermark rs)
  | None => false
  end.

Definition lowersWatermark (recorded : option QueueState) (new : QueueState) : bool :=
  match recorded with
  | None => false
  | Some old =>
      negb (bool_decide (map_Forall (λ r rs, keepsReader new r rs = true) (readerStates old)))
  end.

Definition lowersReader (recorded : option ReaderState) (new : ReaderState) : bool :=
  match recorded with
  | None => false
  | Some old => ackWatermark new <? ackWatermark old
  end.

(** A queue state nobody has written yet. *)
Definition freshQueueState : QueueState :=
  {| exclusiveHighWatermark := 0; readerStates := ∅ |}.

(** Modelled from the spec: graceful unload (section 4.6); [Invalid] and
    [Stopped] are terminal. *)
Definition stop (c : Context) : Context :=
  match status c with
  | Invalid | Stopped => c
  | Initializing | Active => setStatus Stopped c
  end.

(** Modelled from the spec: the operations of the [Context] implementation
    (not part of the sources), each as the specification describes it: task
    IDs and vector clocks (4.2, 4.3), queue state (4.4, with the policy of
    sections 3 and 8 that a lower watermark is a no-op), replication state
    (4.5: a stale acknowledgement is dropped), execution pass-through
    (section 6), ownership check (section 5), unload (4.6).  Every method
    with an error result starts with the state check.
    [UpdateRemoteClusterInfo] has no error result and the specification
    gives it no state check: it does what section 4.5 says in every state,
    in memory. *)
Definition call (c : Call) (w : World) : Result * World :=
  match c with
  | GetRemoteAdminClient _ => gated w (λ w, (Returned VHandle, w))
  | GetEngine => gated w (λ w, (Returned VHandle, w))
  | AssertOwnership =>
      gated w (λ w, fencedRoundTrip (ReqPresentRange (rangeID (ctx w))) w)
  | NewVectorClock =>
      gated w (λ w,
        match generateTaskIDLocked w with
        | (inl id, w') =>
            (Returned (VClock (clusterID (ctx w')) (shardID (ctx w')) id), w')
        | (inr e, w') => (Failed e, w')
        end)
  | GenerateTaskID =>
      gated w (λ w,
        match generateTaskIDLocked w with
        | (inl id, w') => (Returned (VInt id), w')
        | (inr e, w') => (Failed e, w')
        end)
  | GenerateTaskIDs number =>
      gated w (λ w,
        match generateTaskIDsLocked (Z.to_nat number) w with
        | (inl ids, w') => (Returned (VInts ids), w')
        | (inr e, w') => (Failed e, w')
        end)
  | SetQueueState category _ state =>
      gated w (λ w,
        let i := shardInfo (ctx w) in
        if lowersWatermark (queueStates i !! category) state then (Returned VUnit, w)
        else persistShardInfo (setQueueStates (<[category := state]> (queueStates i)) i) w)
  | UpdateReplicationQueueReaderState readerID readerState =>
      gated w (λ w,
        let i := shardInfo (ctx w) in
        let q := default freshQueueState (queueStates i !! CategoryReplication) in
        let q' := {| exclusiveHighWatermark := exclusiveHighWatermark q;
                     readerStates := <[readerID := readerState]> (readerStates q) |} in
        if lowersReader (readerStates q !! readerID) readerState then (Returned VUnit, w)
        else
          persistShardInfo (setQueueStates (<[CategoryReplication := q']> (queueStates i)) i) w)
  | UpdateReplicatorDLQAckLevel sourceCluster ackLevel =>
      gated w (λ w,
        let i := shardInfo (ctx w) in
        if staleLevel (dlqAckLevels i !! sourceCluster) ackLevel then (Returned VUnit, w)
        else
          persistShardInfo
            (setDlqAckLevels (<[sourceCluster := ackLevel]> (dlqAckLevels i)) i) w)
  | UpdateRemoteClusterInfo cluster ackID ackTime =>
      let m := remoteClusters (ctx w) in
      if staleAck (m !! cluster) ackID ackTime then (Returned VUnit, w)
      else
        (Returned VUnit,
         withCtx (setRemoteClusters
                    (<[cluster := {| ackTaskID := ackID; ackTimestamp := ackTime |}]> m)
                    (ctx w)) w)
  | UpdateRemoteReaderInfo readerID ackID ackTime =>
      gated w (λ w,
        let i := shardInfo (ctx w) in
        let m := readerInfos i in
        if staleAck (m !! readerID) ackID ackTime then (Returned VUnit, w)
        else
          persistShardInfo
            (setReaderInfos
               (<[readerID := {| ackTaskID := ackID; ackTimestamp := ackTime |}]> m) i) w)
  | GetReplicationStatus clusters =>
      gated w (λ w,
        (Returned (VAcks (map (λ cl, (cl, remoteClusters (ctx w) !! cl)) clusters)), w))
  | Execution op =>
      gated w (λ w, fencedRoundTrip (ReqExecution op (rangeID (ctx w))) w)
  | AddSpeculativeWorkflowTaskTimeoutTask => gated w (λ w, (Returned VUnit, w))
  | UnloadForOwnershipLost => (Returned VUnit, withCtx (stop (ctx w)) w)
  | FinishStop => (Returned VUnit, withCtx (stop (ctx w)) w)
  end.

(** Modelled from the spec: another owner's acquisition of the same shard
    (sections 3 and 4.1): the persisted range ID goes up by one. *)
Definition competingAcquire (newOwner : string) (st : Store) : Store :=
  {| persistedRangeID := add64 (persistedRangeID st) 1; persistedOwner := newOwner;
     persistedInfo := persistedInfo st |}.

Definition step (e : Event) (w : World) : option (Call * Result) * World :=
  match e with
  | EvCall c => let '(r, w') := call c w in (Some (c, r), w')
  | EvLoadShard => (None, loadShard w)
  | EvAcquire => (None, acquire w)
  | EvCompetingAcquire newOwner =>
      (None, {| ctx := ctx w; store := competingAcquire newOwner (store w);
                requests := requests w |})
  end.

(** The calls of a run with their results, in order, and the final state. *)
Fixpoint run (evs : list Event) (w : World) : list (Call * Result) * World :=
  match evs with
  | [] => ([], w)
  | e :: evs' =>
      let '(o, w') := step e w in
      let '(tr, w'') := run evs' w' in
      (match o with Some cr => cr :: tr | None => tr end, w'')
  end.

(** The task IDs a call returned to its caller. *)
Definition taskIDsOf (cr : Call * Result) : list Z :=
  match cr with
  | (GenerateTaskID, Returned (VInt id)) => [id]
  | (GenerateTaskIDs _, Returned (VInts ids)) => ids
  | _ => []
  end.

Definition issuedTaskIDs (tr : list (Call * Result)) : list Z :=
  concat (map taskIDsOf tr).

(** What the other owners alone do to the store in a run. *)
Fixpoint competitorsOnly (evs : list Event) (st : Store) : Store :=
  match evs with
  | [] => st
  | EvCompetingAcquire newOwner :: evs' => competitorsOnly evs' (competingAcquire newOwner st)
  | _ :: evs' => competitorsOnly evs' st
  end.

(** A fresh Context for a shard, before its lease is acquired. *)
Definition newContext (shard cluster : Z) (ownerName : string) (size : Z) : Context :=
  {| shardID := shard; clusterID := cluster; owner := ownerName; rangeSize := size;
     status := Initializing; rangeID := 0; taskCursor := 0; blockEnd := 0;
     shardInfo := {| queueStates := ∅; dlqAckLevels := ∅; readerInfos := ∅ |};
     remoteClusters := ∅ |}.

(** ** What the statements are about *)





Definition terminal (s : Status) : Prop := s = Invalid ∨ s = Stopped.

(** The calls among the events of a run. *)
Fixpoint callsOf (evs : list Event) : list Call :=
  match evs with
  | [] => []
  | EvCall c :: evs' => c :: callsOf evs'
  | _ :: evs' => callsOf evs'
  end.

(** The Context's range ID is the persisted one: its fence is accepted. *)
Definition fenceHolds (w : World) : Prop :=
  persistedRangeID (store w) = rangeID (ctx w).

(** The Context's copy of the tracked state is the persisted one. *)
Definition synced (w : World) : Prop :=
  shardInfo (ctx w) = persistedInfo (store w).

(** The three acknowledgement updates of the Replication State Tracker,
    each with the key it is recorded under and the level it carries. *)
Inductive AckUpdate : Type :=
  | AckCluster (cluster : string) (ackID ackTime : Z)
  | AckDLQ (sourceCluster : string) (ackLevel : Z)
  | AckReader (readerID : Z) (ackID ackTime : Z).

Inductive AckKey : Type :=
  | ClusterKey (cluster : string)
  | DLQKey (sourceCluster : string)
  | ReaderKey (readerID : Z).

#[global] Instance AckKey_eq_dec : EqDecision AckKey.
Proof. solve_decision. Defined.

Definition ackCall (u : AckUpdate) : Call :=
  match u with
  | AckCluster cl a t => UpdateRemoteClusterInfo cl a t
  | AckDLQ cl a => UpdateReplicatorDLQAckLevel cl a
  | AckReader r a t => UpdateRemoteReaderInfo r a t
  end.

Definition keyOf (u : AckUpdate) : AckKey :=
  match u with
  | AckCluster cl _ _ => ClusterKey cl
  | AckDLQ cl _ => DLQKey cl
  | AckReader r _ _ => ReaderKey r
  end.

Definition incoming (u : AckUpdate) : Z :=
  match u with
  | AckCluster _ a _ | AckDLQ _ a | AckReader _ a _ => a
  end.

(** The level recorded under a key. *)
Definition recordedAt (k : AckKey) (w : World) : option Z :=
  match k with
  | ClusterKey cl => ackTaskID <$> remoteClusters (ctx w) !! cl
  | DLQKey cl => dlqAckLevels (shardInfo (ctx w)) !! cl
  | ReaderKey r => ackTaskID <$> readerInfos (shardInfo (ctx w)) !! r
  end.

Definition recorded (u : AckUpdate) (w : World) : option Z := recordedAt (keyOf u) w.

(** The update is stale against what the Context has recorded. *)
Definition stale (u : AckUpdate) (w : World) : bool :=
  match u with
  | AckCluster cl a t => staleAck (remoteClusters (ctx w) !! cl) a t
  | AckDLQ cl a => staleLevel (dlqAckLevels (shardInfo (ctx w)) !! cl) a
  | AckReader r a t => staleAck (readerInfos (shardInfo (ctx w)) !! r) a t
  end.

(** The update reaches the record when it is not stale: always for the
    in-memory record of a remote cluster; for the two updates that are
    persisted, when the Context is [Active] and its fenced write is
    accepted. *)
Definition accepted (u : AckUpdate) (w : World) : bool :=
  match u with
  | AckCluster _ _ _ => true
  | AckDLQ _ _ | AckReader _ _ _ =>
      bool_decide (status (ctx w) = Active ∧ fenceHolds w)
  end.

(** Order on recorded levels, nothing recorded being below everything. *)
Definition levelLe (a b : option Z) : Prop :=
  match a, b with
  | None, _ => True
  | Some x, Some y => x ≤ y
  | Some _, None => False
  end.

(** The acknowledged watermark of a reader of a category in a tracked
    state, and in the persisted one. *)
Definition watermarkOf (i : ShardInfo) (category : Category) (readerID : Z) : option Z :=
  q ← queueStates i !! category;
  ackWatermark <$> readerStates q !! readerID.

Definition persistedWatermark (st : Store) (category : Category) (readerID : Z) : option Z :=
  watermarkOf (persistedInfo st) category readerID.

(** Nothing tracked has gone back from [i] to [i']: no reader's watermark,
    no dead-letter level, no reader's acknowledged task ID. *)
Definition infoLe (i i' : ShardInfo) : Prop :=
  (∀ category reader, levelLe (watermarkOf i category reader) (watermarkOf i' category reader)) ∧
  (∀ cl, levelLe (dlqAckLevels i !! cl) (dlqAckLevels i' !! cl)) ∧
  (∀ r, levelLe (ackTaskID <$> readerInfos i !! r) (ackTaskID <$> readerInfos i' !! r)).

(** Two worlds with the same tracked state, in memory and persisted. *)
Definition sameTracked (w w' : World) : Prop :=
  shardInfo (ctx w') = shardInfo (ctx w) ∧
  remoteClusters (ctx w') = remoteClusters (ctx w) ∧
  persistedInfo (store w') = persistedInfo (store w).

(** What a call does to the tracked state: nothing recorded goes back, and
    a synced Context stays synced. *)
Definition keptBy (w w' : World) : Prop :=
  infoLe (shardInfo (ctx w)) (shardInfo (ctx w')) ∧
  (∀ cl, levelLe (ackTaskID <$> remoteClusters (ctx w) !! cl)
           (ackTaskID <$> remoteClusters (ctx w') !! cl)) ∧
  (synced w → synced w').

(** *** The worlds of the scenarios *)

Definition emptyInfo : ShardInfo :=
  {| queueStates := ∅; dlqAckLevels := ∅; readerInfos := ∅ |}.

(** Shard 7 with persisted range ID 3, and a Context with range size 1000
    that has not acquired it yet. *)
Definition shard7World : World :=
  {| ctx := newContext 7 1 "host-a" 1000;
     store := {| persistedRangeID := 3; persistedOwner := "host-z";
                 persistedInfo := emptyInfo |};
     requests := [] |}.

(** The same after acquisition. *)
Definition ownedWorld : World := snd (run [EvLoadShard; EvAcquire] shard7World).

(** And after a graceful unload. *)
Definition stoppedWorld : World := snd (call UnloadForOwnershipLost ownedWorld).

Definition readerAt (watermark : Z) : QueueState :=
  {| exclusiveHighWatermark := 100;
     readerStates := {[ 0 := {| ackWatermark := watermark; completedRanges := [] |} ]} |}.

(** The owner with reader 0 of the transfer queue persisted at watermark
    10. *)
Definition watermark10World : World :=
  snd (call (SetQueueState CategoryTransfer 0 (readerAt 10)) ownedWorld).


End Shard.

(** * Properties *)

Lemma pow2_double bits : 0 < bits → 2 ^ bits = 2 * 2 ^ (bits - 1).
Proof.
  intros Hb. replace bits with (Z.succ (bits - 1)) at 1 by lia.
  rewrite Z.pow_succ_r by lia. reflexivity.
Qed.

Lemma wrap_signed_range bits z :
  0 < bits → - 2 ^ (bits - 1) ≤ wrap_signed bits z < 2 ^ (bits - 1).
Proof.
  intros Hb. unfold wrap_signed.
  pose proof (pow2_double bits Hb) as H2.
  assert (0 < 2 ^ (bits - 1)) by (apply Z.pow_pos_nonneg; lia).
  pose proof (Z.mod_pos_bound (z + 2 ^ (bits - 1)) (2 ^ bits)). lia.
Qed.

Lemma wrap_signed_small bits z :
  0 < bits → - 2 ^ (bits - 1) ≤ z < 2 ^ (bits - 1) → wrap_signed bits z = z.
Proof.
  intros Hb Hz. unfold wrap_signed.
  pose proof (pow2_double bits Hb) as H2.
  rewrite Z.mod_small by lia. lia.
Qed.

Module DynamicConfigProofs.
Import DynamicConfig.

Section Conversions.
Context `{GoRuntime}.

Lemma convertInt_integerValue (v : GoAny) :
  convertInt v =
    match integerValue v with
    | Some i => (to_int i, None)
    | None => (0, Some (errorsNew "value type is not int"))
    end.
Proof. destruct v; reflexivity. Qed.

Lemma convertFloat_cases (v : GoAny) :
  convertFloat v =
    match floatValue v with
    | Some f => (f, None)
    | None =>
        match integerValue v with
        | Some i => (f64_of_Z (to_int i), None)
        | None => (float64_zero, Some (errorsNew "value type is not float64"))
        end
    end.
Proof. destruct v; reflexivity. Qed.

Lemma ParseBool_total (s : string) :
  snd (ParseBool s) = None ∨ (fst (ParseBool s) = false ∧ is_Some (snd (ParseBool s))).
Proof.
  unfold ParseBool.
  destruct (bool_decide _); [simpl; eauto |].
  destruct (bool_decide _); simpl; eauto.
Qed.

(** The values [strconv.ParseBool] reads. *)
Lemma ParseBool_accepts (s : string) :
  snd (ParseBool s) = None ↔
  s ∈ ["1"; "t"; "T"; "true"; "TRUE"; "True"; "0"; "f"; "F"; "false"; "FALSE"; "False"]%string.
Proof.
  unfold ParseBool.
  destruct (bool_decide_reflect (s ∈ ["1"; "t"; "T"; "true"; "TRUE"; "True"]%string)) as [H1|H1];
    [| destruct (bool_decide_reflect (s ∈ ["0"; "f"; "F"; "false"; "FALSE"; "False"]%string))
         as [H2|H2]];
    simpl; (split; [intros Hs | intros Hs]); try discriminate; try reflexivity;
    repeat (rewrite ?elem_of_cons, ?elem_of_nil in * ); tauto.
Qed.

(** An integer that fits a 32-bit [int] is read as that many seconds, exactly,
    as long as the product fits [time.Duration]. *)
Lemma seconds_exact (i : Z) :
  - 2 ^ 31 ≤ i < 2 ^ 31 →
  wrap_signed 64 (to_int i * Second) = i * Second.
Proof.
  intros Hi. unfold to_int.
  assert (Hw : wrap_signed (int_bits arch) i = i).
  { destruct arch; simpl; apply wrap_signed_small; lia. }
  rewrite Hw. apply wrap_signed_small; [lia|]. unfold Second. lia.
Qed.

(** C9: [convertDuration] hands a [time.Duration] back unchanged, gives a
    string to [ParseDurationDefaultSeconds] (a parse error becoming zero
    with an error), reads a value of any of the eleven integer types as
    [time.Duration(int(v)) * time.Second] and a [float32] or [float64] as
    that many seconds, and returns zero with an error for a value of any
    other type. *)
Theorem convertDuration_cases (v : GoAny) :
  convertDuration v =
    match v with
    | ADuration d => (d, None)
    | AString s =>
        match ParseDurationDefaultSeconds s with
        | (d, None) => (d, None)
        | (_, Some err) => (0, Some (fmtErrorf "failed to parse duration: %v" err))
        end
    | _ =>
        match integerValue v, floatValue v with
        | Some i, _ => (wrap_signed 64 (to_int i * Second), None)
        | None, Some f => (f64_to_int64 (f64_mul f (f64_of_Z Second)), None)
        | None, None => (0, Some (errorsNew "value not convertible to Duration"))
        end
    end.
Proof.
  destruct v; reflexivity.
Qed.

(** C10: each of [convertInt], [convertFloat], [convertBool],
    [convertString] and [convertMap] returns, for every input, either the
    converted value with a nil error or the zero value of its result type
    with an error, and the statement says which.  [convertInt] returns
    [int(x)] for a value [x] of one of the eleven integer types and refuses
    everything else, a string included.  [convertFloat] returns a float as
    a [float64] and an integer as [float64(int(x))].  [convertBool] returns
    a bool as it is and a string as [strconv.ParseBool] reads it: [true] for
    the six spellings of true, [false] for the six of false, a syntax error
    otherwise.  [convertString] returns a string as it is, [convertMap] a
    map as it is (a nil map included).  The acceptance conditions follow. *)
Theorem conversions_total :
  (∀ v : GoAny,
     convertInt v =
       match integerValue v with
       | Some i => (to_int i, None)
       | None => (0, Some (errorsNew "value type is not int"))
       end) ∧
  (∀ v : GoAny,
     convertFloat v =
       match floatValue v, integerValue v with
       | Some f, _ => (f, None)
       | None, Some i => (f64_of_Z (to_int i), None)
       | None, None => (float64_zero, Some (errorsNew "value type is not float64"))
       end) ∧
  (∀ v : GoAny,
     convertBool v =
       match v with
       | ABool b => (b, None)
       | AString s =>
           (bool_decide (s ∈ ["1"; "t"; "T"; "true"; "TRUE"; "True"]%string),
            if bool_decide
                 (s ∈ ["1"; "t"; "T"; "true"; "TRUE"; "True";
                       "0"; "f"; "F"; "false"; "FALSE"; "False"]%string)
            then None
            else Some (strconvSyntaxError "ParseBool" s))
       | _ => (false, Some (errorsNew "value type is not bool"))
       end) ∧
  ((∀ s : string, convertString (AString s) = (s, None)) ∧
   (∀ v : GoAny, (∀ s, v ≠ AString s) →
      convertString v = (EmptyString, Some (errorsNew "value type is not string")))) ∧
  ((∀ m : option (gmap string GoAny), convertMap (AMap m) = (m, None)) ∧
   (∀ v : GoAny, (∀ m, v ≠ AMap m) →
      convertMap v = (None, Some (errorsNew "value type is not map")))) ∧
  (∀ v : GoAny,
     snd (convertInt v) = None ∨ (fst (convertInt v) = 0 ∧ is_Some (snd (convertInt v)))) ∧
  (∀ v : GoAny,
     snd (convertFloat v) = None ∨
     (fst (convertFloat v) = float64_zero ∧ is_Some (snd (convertFloat v)))) ∧
  (∀ v : GoAny,
     snd (convertBool v) = None ∨ (fst (convertBool v) = false ∧ is_Some (snd (convertBool v)))) ∧
  (∀ v : GoAny,
     snd (convertString v) = None ∨
     (fst (convertString v) = EmptyString ∧ is_Some (snd (convertString v)))) ∧
  (∀ v : GoAny,
     snd (convertMap v) = None ∨ (fst (convertMap v) = None ∧ is_Some (snd (convertMap v)))) ∧
  (∀ v : GoAny, snd (convertInt v) = None ↔ is_Some (integerValue v)) ∧
  (∀ s : string, is_Some (snd (convertInt (AString s)))) ∧
  (∀ v : GoAny,
     snd (convertBool v) = None ↔
     (∃ b, v = ABool b) ∨ (∃ s, v = AString s ∧ snd (ParseBool s) = None)).
Proof.
  split; [exact convertInt_integerValue |].
  split; [intros v; rewrite convertFloat_cases; by destruct (floatValue v) |].
  split.
  { intros v. destruct v; try reflexivity. simpl. unfold ParseBool.
    destruct (bool_decide_reflect (s ∈ ["1"; "t"; "T"; "true"; "TRUE"; "True"]%string))
      as [H1|H1];
      [| destruct (bool_decide_reflect
                     (s ∈ ["0"; "f"; "F"; "false"; "FALSE"; "False"]%string)) as [H2|H2]].
    - rewrite bool_decide_eq_true_2; [done |].
      repeat (rewrite ?elem_of_cons, ?elem_of_nil in * ); tauto.
    - rewrite bool_decide_eq_true_2; [done |].
      repeat (rewrite ?elem_of_cons, ?elem_of_nil in * ); tauto.
    - rewrite bool_decide_eq_false_2; [done |].
      repeat (rewrite ?elem_of_cons, ?elem_of_nil in * ); tauto. }
  split.
  { split; [done |]. intros v Hv. destruct v; try reflexivity. by destruct (Hv s). }
  split.
  { split; [done |]. intros v Hv. destruct v; try reflexivity. by destruct (Hv m). }
  repeat split.
  - intros v. rewrite convertInt_integerValue. destruct (integerValue v); simpl; eauto.
  - intros v. rewrite convertFloat_cases.
    destruct (floatValue v), (integerValue v); simpl; eauto.
  - intros v. destruct v; simpl; eauto. apply ParseBool_total.
  - intros v. destruct v; simpl; eauto.
  - intros v. destruct v; simpl; eauto.
  - rewrite convertInt_integerValue. destruct (integerValue v); simpl; [eauto | done].
  - rewrite convertInt_integerValue. destruct (integerValue v); simpl; [done |].
    intros [? ?]; done.
  - simpl. eauto.
  - destruct v; simpl; try done; eauto.
  - intros [[b ->] | [s [-> Hs]]]; simpl; done.
Qed.

End Conversions.

Section LookupProofs.
Context `{GoRuntime} `{ConfigTypes} {T : Type}.
Variable box : T → GoAny.

Lemma matchCVs_None (m : Constraints) (cvs : list ConstrainedValue) :
  matchCVs m cvs = None ↔ Forall (λ cv, cvConstraints cv ≠ m) cvs.
Proof.
  induction cvs as [|cv cvs IH]; simpl.
  - split; [constructor | reflexivity].
  - destruct (decide (m = cvConstraints cv)) as [->|Hne].
    + split; [discriminate | intros Hall; inversion Hall; congruence].
    + rewrite IH. split.
      * intros Hall. constructor; [congruence | exact Hall].
      * intros Hall. inversion Hall; assumption.
Qed.

Lemma matchCVs_Some (m : Constraints) (cvs : list ConstrainedValue) (v : GoAny) :
  matchCVs m cvs = Some v ↔
  ∃ l1 cv l2, cvs = l1 ++ cv :: l2 ∧ Forall (λ c, cvConstraints c ≠ m) l1 ∧
              cvConstraints cv = m ∧ v = cvValue cv.
Proof.
  induction cvs as [|cv cvs IH]; simpl.
  - split; [discriminate |]. intros (l1 & c & l2 & Heq & _). by destruct l1.
  - destruct (decide (m = cvConstraints cv)) as [->|Hne].
    + split.
      * intros [= <-]. exists [], cv, cvs. repeat split; constructor.
      * intros (l1 & c & l2 & Heq & Hall & Hc & ->).
        destruct l1 as [|c1 l1]; simpl in Heq; injection Heq as -> ->; [reflexivity |].
        inversion Hall; congruence.
    + rewrite IH. split.
      * intros (l1 & c & l2 & -> & Hall & Hc & ->).
        exists (cv :: l1), c, l2. repeat split; [constructor; [congruence | done] | done].
      * intros (l1 & c & l2 & Heq & Hall & Hc & ->).
        destruct l1 as [|c1 l1]; simpl in Heq; injection Heq as -> ->; [congruence |].
        exists l1, c, l2. inversion Hall; done.
Qed.

Lemma matchDefaultCVs_None (m : Constraints) (dcvs : list (TypedConstrainedValue T)) :
  matchDefaultCVs box m dcvs = None ↔ Forall (λ cv, tcvConstraints cv ≠ m) dcvs.
Proof.
  induction dcvs as [|cv dcvs IH]; simpl.
  - split; [constructor | reflexivity].
  - destruct (decide (m = tcvConstraints cv)) as [->|Hne].
    + split; [discriminate | intros Hall; inversion Hall; congruence].
    + rewrite IH. split.
      * intros Hall. constructor; [congruence | exact Hall].
      * intros Hall. inversion Hall; assumption.
Qed.

Lemma matchDefaultCVs_Some (m : Constraints) (dcvs : list (TypedConstrainedValue T))
    (v : GoAny) :
  matchDefaultCVs box m dcvs = Some v ↔
  ∃ l1 cv l2, dcvs = l1 ++ cv :: l2 ∧ Forall (λ c, tcvConstraints c ≠ m) l1 ∧
              tcvConstraints cv = m ∧ v = box (tcvValue cv).
Proof.
  induction dcvs as [|cv dcvs IH]; simpl.
  - split; [discriminate |]. intros (l1 & c & l2 & Heq & _). by destruct l1.
  - destruct (decide (m = tcvConstraints cv)) as [->|Hne].
    + split.
      * intros [= <-]. exists [], cv, dcvs. repeat split; constructor.
      * intros (l1 & c & l2 & Heq & Hall & Hc & ->).
        destruct l1 as [|c1 l1]; simpl in Heq; injection Heq as -> ->; [reflexivity |].
        inversion Hall; congruence.
    + rewrite IH. split.
      * intros (l1 & c & l2 & -> & Hall & Hc & ->).
        exists (cv :: l1), c, l2. repeat split; [constructor; [congruence | done] | done].
      * intros (l1 & c & l2 & Heq & Hall & Hc & ->).
        destruct l1 as [|c1 l1]; simpl in Heq; injection Heq as -> ->; [congruence |].
        exists l1, c, l2. inversion Hall; done.
Qed.

(** At one precedence entry: the client's values first, then the defaults. *)
Lemma matchAt_first (m : Constraints) (cvs : list ConstrainedValue)
    (dcvs : list (TypedConstrainedValue T)) (v : GoAny) :
  match matchCVs m cvs with
  | Some v' => Some v'
  | None => matchDefaultCVs box m dcvs
  end = Some v ↔ firstMatchAt box m cvs dcvs v.
Proof.
  split.
  - destruct (matchCVs m cvs) as [v'|] eqn:Hc.
    + intros [= ->]. apply matchCVs_Some in Hc as (l1 & cv & l2 & ? & ? & ? & ?).
      by eapply firstInClient.
    + intros Hd. apply matchCVs_None in Hc.
      apply matchDefaultCVs_Some in Hd as (l1 & cv & l2 & ? & ? & ? & ?).
      by eapply firstInDefaults.
  - intros [l1 cv l2 Heq Hall Hc Hv | l1 cv l2 Hnone Heq Hall Hc Hv].
    + assert (Hs : matchCVs m cvs = Some v) by (apply matchCVs_Some; eauto 10).
      by rewrite Hs.
    + apply matchCVs_None in Hnone. rewrite Hnone.
      apply matchDefaultCVs_Some. eauto 10.
Qed.

Lemma matchAt_none (m : Constraints) (cvs : list ConstrainedValue)
    (dcvs : list (TypedConstrainedValue T)) :
  match matchCVs m cvs with
  | Some v' => Some v'
  | None => matchDefaultCVs box m dcvs
  end = None ↔ unmatched m cvs dcvs.
Proof.
  unfold unmatched. rewrite <- matchCVs_None, <- matchDefaultCVs_None.
  destruct (matchCVs m cvs); split; try done; intros [? ?]; done.
Qed.

Lemma matchPrecedence_step (m : Constraints) (cvs : list ConstrainedValue)
    (dcvs : list (TypedConstrainedValue T)) (prec : list Constraints) :
  matchPrecedence box cvs dcvs (m :: prec) =
    match
      match matchCVs m cvs with
      | Some v' => Some v'
      | None => matchDefaultCVs box m dcvs
      end
    with
    | Some v => Some v
    | None => matchPrecedence box cvs dcvs prec
    end.
Proof.
  simpl. destruct (matchCVs m cvs); [reflexivity |].
  destruct (matchDefaultCVs box m dcvs); reflexivity.
Qed.

Lemma matchPrecedence_None (cvs : list ConstrainedValue)
    (dcvs : list (TypedConstrainedValue T)) (prec : list Constraints) :
  matchPrecedence box cvs dcvs prec = None ↔ Forall (λ m, unmatched m cvs dcvs) prec.
Proof.
  induction prec as [|m prec IH].
  - split; [constructor | reflexivity].
  - rewrite matchPrecedence_step, Forall_cons, <- IH, <- (matchAt_none m cvs dcvs).
    destruct (match matchCVs m cvs with Some v' => Some v' | None => _ end);
      split; try done; intros [? ?]; done.
Qed.

Lemma matchPrecedence_Some (cvs : list ConstrainedValue)
    (dcvs : list (TypedConstrainedValue T)) (prec : list Constraints) (v : GoAny) :
  matchPrecedence box cvs dcvs prec = Some v ↔
  ∃ pre m post, prec = pre ++ m :: post ∧
                Forall (λ m', unmatched m' cvs dcvs) pre ∧
                firstMatchAt box m cvs dcvs v.
Proof.
  induction prec as [|m prec IH].
  - split; [discriminate |]. intros (pre & m & post & Heq & _). by destruct pre.
  - rewrite matchPrecedence_step.
    destruct (match matchCVs m cvs with Some v' => Some v' | None => _ end) as [v'|] eqn:Hm.
    + split.
      * intros [= ->]. apply matchAt_first in Hm.
        exists [], m, prec. repeat split; [constructor | done].
      * intros (pre & m' & post & Heq & Hpre & Hfirst).
        destruct pre as [|p pre]; simpl in Heq; injection Heq as -> ->.
        -- apply matchAt_first in Hfirst. congruence.
        -- apply Forall_cons in Hpre as [Hp _]. apply matchAt_none in Hp. congruence.
    + rewrite IH. apply matchAt_none in Hm. split.
      * intros (pre & m' & post & -> & Hpre & Hfirst).
        exists (m :: pre), m', post. repeat split; [by constructor | done].
      * intros (pre & m' & post & Heq & Hpre & Hfirst).
        destruct pre as [|p pre]; simpl in Heq; injection Heq as -> ->.
        -- apply matchAt_first in Hfirst. apply matchAt_none in Hm. congruence.
        -- apply Forall_cons in Hpre as [_ Hpre]. eauto 10.
Qed.

Lemma firstMatchAt_nonempty (m : Constraints) (cvs : list ConstrainedValue)
    (dcvs : list (TypedConstrainedValue T)) (v : GoAny) :
  firstMatchAt box m cvs dcvs v → (length cvs + length dcvs ≠ 0)%nat.
Proof.
  intros [l1 cv l2 -> _ _ _ | l1 cv l2 _ -> _ _ _]; rewrite length_app; simpl; lia.
Qed.

(** C3: [findMatch] succeeds with [v] exactly when the precedence list has
    an entry [m] such that no earlier entry equals the constraints of any
    client value or typed default, and [v] is the value of the first client
    value whose constraints equal [m] or, when no client value has them, of
    the first typed default whose constraints equal [m]. *)
Theorem findMatch_first_match_wins (cvs : list ConstrainedValue)
    (defaultCVs : list (TypedConstrainedValue T)) (precedence : list Constraints)
    (v : GoAny) :
  findMatch box cvs defaultCVs precedence = (v, None) ↔
  ∃ pre m post, precedence = pre ++ m :: post ∧
                Forall (λ m', unmatched m' cvs defaultCVs) pre ∧
                firstMatchAt box m cvs defaultCVs v.
Proof.
  rewrite <- matchPrecedence_Some. unfold findMatch.
  destruct (decide (length cvs + length defaultCVs = 0)%nat) as [Hz|Hnz].
  - split; [discriminate |].
    intros Hs. apply matchPrecedence_Some in Hs as (pre & m & post & _ & _ & Hf).
    by apply firstMatchAt_nonempty in Hf.
  - destruct (matchPrecedence box cvs defaultCVs precedence); split; congruence.
Qed.

Lemma matchAndConvert_value (c : Collection) (key : Key) (def : T)
    (cdef : option (list (TypedConstrainedValue T)))
    (convert : GoAny → T * option error) (precedence : list Constraints) :
  fst (matchAndConvert box c key def cdef convert precedence) =
    match findMatch box (client c key) (defaultsOf def cdef) precedence with
    | (val, None) =>
        match convert val with
        | (typedVal, None) => typedVal
        | (_, Some _) => fst (convert (box def))
        end
    | (_, Some _) => fst (convert (box def))
    end.
Proof.
  unfold matchAndConvert, defaultsOf.
  destruct (findMatch box (client c key) _ precedence) as [val [e|]].
  - destruct (throttleLog c) as [b c'].
    destruct (convert (box def)) as [tv [e'|]]; reflexivity.
  - destruct (convert val) as [tv [e'|]]; [| reflexivity].
    destruct (throttleLog c) as [b c'].
    destruct (convert (box def)) as [tv' [e''|]]; reflexivity.
Qed.

(** C4: [matchAndConvert] returns a [T] and no error.  Its value is the
    conversion of the matched value when there is a match and the
    conversion succeeds, and otherwise what [convert] gives for the global
    default [def]: when nothing matches, and when the matched value does not
    convert. *)
Theorem matchAndConvert_soft_failure (c : Collection) (key : Key) (def : T)
    (cdef : option (list (TypedConstrainedValue T)))
    (convert : GoAny → T * option error) (precedence : list Constraints) :
  ∃ (typedVal : T) (c' : Collection),
    matchAndConvert box c key def cdef convert precedence = (typedVal, c') ∧
    client c' = client c ∧
    typedVal =
      match findMatch box (client c key) (defaultsOf def cdef) precedence with
      | (val, None) =>
          match convert val with
          | (converted, None) => converted
          | (_, Some _) => fst (convert (box def))
          end
      | (_, Some _) => fst (convert (box def))
      end.
Proof.
  destruct (matchAndConvert box c key def cdef convert precedence) as [tv c'] eqn:Hm.
  exists tv, c'. split; [reflexivity |]. split.
  - revert Hm. unfold matchAndConvert.
    destruct (findMatch box (client c key) _ precedence) as [val [e|]].
    + destruct (throttleLog c) as [b c1] eqn:Ht.
      assert (client c1 = client c) by (injection Ht as _ <-; reflexivity).
      destruct (convert (box def)) as [tv1 [e1|]]; intros [= _ <-]; destruct b; simpl; done.
    + destruct (convert val) as [tv1 [e1|]]; [| intros [= _ <-]; done].
      destruct (throttleLog c) as [b c1] eqn:Ht.
      assert (client c1 = client c) by (injection Ht as _ <-; reflexivity).
      destruct (convert (box def)) as [tv2 [e2|]]; intros [= _ <-]; destruct b; simpl; done.
  - rewrite <- matchAndConvert_value, Hm. reflexivity.
Qed.

Lemma findMatch_error (cvs : list ConstrainedValue)
    (defaultCVs : list (TypedConstrainedValue T)) (precedence : list Constraints) :
  snd (findMatch box cvs defaultCVs precedence) =
    if decide (length cvs + length defaultCVs = 0)%nat then Some errKeyNotPresent
    else
      match matchPrecedence box cvs defaultCVs precedence with
      | Some _ => None
      | None => Some errNoMatchingConstraint
      end.
Proof.
  unfold findMatch. case_decide; [reflexivity |].
  destruct (matchPrecedence box cvs defaultCVs precedence); reflexivity.
Qed.

Lemma both_empty (cvs : list ConstrainedValue) (defaultCVs : list (TypedConstrainedValue T)) :
  (length cvs + length defaultCVs = 0)%nat ↔ cvs = [] ∧ defaultCVs = [].
Proof.
  destruct cvs, defaultCVs; simpl; split; try done; try lia; intros [? ?]; done.
Qed.

(** C8: the error of [findMatch] is [errKeyNotPresent] exactly when the
    client's list and the typed-default list are both empty, and
    [errNoMatchingConstraint] exactly when they are not both empty and no
    precedence entry equals the constraints of any entry; when [findMatch]
    fails inside [matchAndConvert], the result is what [convert] gives for
    the global default. *)
Theorem findMatch_errors (cvs : list ConstrainedValue)
    (defaultCVs : list (TypedConstrainedValue T)) (precedence : list Constraints)
    (c : Collection) (key : Key) (def : T)
    (cdef : option (list (TypedConstrainedValue T)))
    (convert : GoAny → T * option error) :
  (snd (findMatch box cvs defaultCVs precedence) = Some errKeyNotPresent ↔
     cvs = [] ∧ defaultCVs = []) ∧
  (snd (findMatch box cvs defaultCVs precedence) = Some errNoMatchingConstraint ↔
     (cvs ≠ [] ∨ defaultCVs ≠ []) ∧
     Forall (λ m, unmatched m cvs defaultCVs) precedence) ∧
  match snd (findMatch box (client c key) (defaultsOf def cdef) precedence) with
  | Some _ =>
      fst (matchAndConvert box c key def cdef convert precedence) = fst (convert (box def))
  | None => True
  end.
Proof.
  split; [| split; [split |]].
  - rewrite findMatch_error, <- both_empty. case_decide; [done |].
    destruct (matchPrecedence box cvs defaultCVs precedence); done.
  - intros Herr. rewrite findMatch_error in Herr. case_decide as Hlen; [done |].
    destruct (matchPrecedence box cvs defaultCVs precedence) eqn:Hp; [done |].
    split; [| by apply matchPrecedence_None].
    rewrite both_empty in Hlen.
    destruct cvs; [| left; done]. destruct defaultCVs; [| right; done].
    exfalso. by apply Hlen.
  - intros [Hne Hall]. rewrite findMatch_error.
    apply matchPrecedence_None in Hall. rewrite Hall.
    case_decide as Hlen; [| reflexivity].
    apply both_empty in Hlen as [-> ->]. destruct Hne; done.
  - rewrite matchAndConvert_value.
    destruct (findMatch box (client c key) (defaultsOf def cdef) precedence) as [val [e|]];
      simpl; done.
Qed.

End LookupProofs.

Section Examples.
#[local] Existing Instance exampleRuntime.
#[local] Existing Instance exampleTypes.

(** The precedence list decides, not the order of the values; at one
    precedence entry the client's value goes before the default. *)
Example first_precedence_entry_wins :
  findMatch AInt [nsValue "" 1; nsValue "ns" 2] [nsDefault "ns" 3] ["ns"; ""]%string
  = (AInt 2, None).
Proof. vm_compute. reflexivity. Qed.

Example default_when_client_has_none :
  findMatch AInt [nsValue "" 1] [nsDefault "ns" 3] ["ns"; ""]%string = (AInt 3, None).
Proof. vm_compute. reflexivity. Qed.

Example no_matching_constraint :
  findMatch AInt [nsValue "other" 1] [] ["ns"; ""]%string
  = (ANil, Some errNoMatchingConstraint).
Proof. vm_compute. reflexivity. Qed.

Example key_not_present :
  findMatch AInt [] ([] : list (TypedConstrainedValue Z)) ["ns"; ""]%string
  = (ANil, Some errKeyNotPresent).
Proof. vm_compute. reflexivity. Qed.

(** A client value of the wrong type: the default is converted instead. *)
Example wrong_type_falls_back :
  fst (matchAndConvert AInt
         (NewCollection (λ _, [ {| cvConstraints := EmptyString; cvValue := AString "x" |} ]))
         "key"%string 7 None convertInt [EmptyString])
  = 7.
Proof. vm_compute. reflexivity. Qed.

Example five_seconds : convertDuration (AInt8 5) = (5000000000, None).
Proof. vm_compute. reflexivity. Qed.

Example bool_is_no_duration :
  convertDuration (ABool true) = (0, Some (errorsNew "value not convertible to Duration")).
Proof. vm_compute. reflexivity. Qed.

(** [int(x)] of the largest [uint64] on a 64-bit build. *)
Example uint64_wraps : convertInt (AUint64 (2 ^ 64 - 1)) = (-1, None).
Proof. vm_compute. reflexivity. Qed.

Example string_is_no_int :
  convertInt (AString "12") = (0, Some (errorsNew "value type is not int")).
Proof. vm_compute. reflexivity. Qed.

Example parse_bool_true : convertBool (AString "TRUE") = (true, None).
Proof. vm_compute. reflexivity. Qed.

End Examples.

Section ConversionFacts.
Context `{GoRuntime}.

(** X1: whatever the input, the integer [convertInt] returns lies in the
    range of [int] on the build's word size. *)
Theorem convertInt_range (v : GoAny) :
  - 2 ^ (int_bits arch - 1) ≤ fst (convertInt v) < 2 ^ (int_bits arch - 1).
Proof.
  rewrite convertInt_integerValue. destruct (integerValue v) as [z|]; simpl.
  - apply wrap_signed_range. destruct arch; simpl; lia.
  - destruct arch; simpl; lia.
Qed.

(** X2: a value of an integer type whose number fits [int] is returned as
    that number, with no error; only numbers outside [int] (a large
    [uint64], an [int64] on a 32-bit build) are changed by the conversion. *)
Theorem convertInt_exact (v : GoAny) (z : Z) :
  integerValue v = Some z →
  - 2 ^ (int_bits arch - 1) ≤ z < 2 ^ (int_bits arch - 1) →
  convertInt v = (z, None).
Proof.
  intros Hv Hz. rewrite convertInt_integerValue, Hv. unfold to_int.
  rewrite wrap_signed_small; [reflexivity | destruct arch; simpl; lia | exact Hz].
Qed.

(** X3: what the other conversions accept.  [convertFloat] accepts exactly
    the values of the integer and the two floating-point types;
    [convertDuration] exactly a [time.Duration], a string the parser reads,
    and the values [convertFloat] accepts, and it returns zero whenever it
    returns an error; [convertString] exactly the strings; [convertMap]
    exactly the values of type [map[string]any]. *)
Theorem conversions_accept :
  (∀ v : GoAny,
     snd (convertFloat v) = None ↔ is_Some (integerValue v) ∨ is_Some (floatValue v)) ∧
  (∀ v : GoAny,
     snd (convertDuration v) = None ↔
     (∃ d, v = ADuration d) ∨
     (∃ s, v = AString s ∧ snd (ParseDurationDefaultSeconds s) = None) ∨
     snd (convertFloat v) = None) ∧
  (∀ v : GoAny, snd (convertDuration v) = None ∨ fst (convertDuration v) = 0) ∧
  (∀ v : GoAny, snd (convertString v) = None ↔ ∃ s, v = AString s) ∧
  (∀ v : GoAny, snd (convertMap v) = None ↔ ∃ m, v = AMap m).
Proof.
  split; [| split; [| split; [| split]]].
  - intros v. destruct v; simpl; split; intros Hx; try done; eauto;
      destruct Hx as [[? ?] | [? ?]]; done.
  - intros v. destruct v; simpl; (split; [intros Hx | intros [[? ?] | [[? [? ?]] | ?]]]);
      try done; eauto.
    + destruct (ParseDurationDefaultSeconds s) as [d [e|]] eqn:Hp; [done |].
      right. left. exists s. by rewrite Hp.
    + match goal with Hs : AString _ = AString _ |- _ => injection Hs as <- end.
      match goal with Hs : snd _ = None |- _ => revert Hs end.
      destruct (ParseDurationDefaultSeconds s) as [d [e|]]; simpl; done.
  - intros v. destruct v; simpl; eauto.
    destruct (ParseDurationDefaultSeconds s) as [d [e|]]; simpl; eauto.
  - intros v. destruct v; simpl; split; intros Hx; try done; eauto; by destruct Hx.
  - intros v. destruct v; simpl; split; intros Hx; try done; eauto; by destruct Hx.
Qed.

(** X4: a value of an integer type that fits 32 bits is read as exactly that
    many seconds, on either word size: the result is the number times
    [time.Second], with no error and no rounding through floating point. *)
Theorem convertDuration_whole_seconds (v : GoAny) (i : Z) :
  integerValue v = Some i →
  - 2 ^ 31 ≤ i < 2 ^ 31 →
  convertDuration v = (i * Second, None).
Proof.
  intros Hv Hi.
  destruct v; simpl in Hv; try discriminate; injection Hv as ->; simpl;
    by rewrite seconds_exact.
Qed.

(** X5: the decode hook is stable on its own output: for any target type,
    what the hook returned goes through the hook again unchanged and
    without error (a [time.Duration] is not converted twice). *)
Theorem mapstructureHookDuration_stable (f f' t : ReflectType) (data : GoAny) :
  mapstructureHookDuration f' t (fst (mapstructureHookDuration f t data)) =
    (fst (mapstructureHookDuration f t data), None).
Proof.
  destruct t as [|name]; simpl; [| reflexivity].
  destruct (convertDuration data) as [d e]. reflexivity.
Qed.

End ConversionFacts.

Lemma convertInt_exact_witness :
  @integerValue exampleRuntime (AUint16 65535) = Some 65535 ∧
  - 2 ^ (int_bits (@arch exampleRuntime) - 1) ≤ 65535
    < 2 ^ (int_bits (@arch exampleRuntime) - 1) ∧
  @convertInt exampleRuntime (AUint16 65535) = (65535, None).
Proof.
  assert (Hr : - 2 ^ (int_bits (@arch exampleRuntime) - 1) ≤ 65535
               < 2 ^ (int_bits (@arch exampleRuntime) - 1)) by (simpl; lia).
  split; [reflexivity |]. split; [exact Hr |].
  exact (@convertInt_exact exampleRuntime (AUint16 65535) 65535 eq_refl Hr).
Defined.

Lemma convertDuration_whole_seconds_witness :
  @integerValue exampleRuntime (AInt64 (-90)) = Some (-90) ∧
  - 2 ^ 31 ≤ -90 < 2 ^ 31 ∧
  @convertDuration exampleRuntime (AInt64 (-90)) = (-90 * Second, None).
Proof.
  assert (Hr : - 2 ^ 31 ≤ -90 < 2 ^ 31) by lia.
  split; [reflexivity |]. split; [exact Hr |].
  exact (@convertDuration_whole_seconds exampleRuntime (AInt64 (-90)) (-90) eq_refl Hr).
Defined.

Section LookupFacts.
Context `{GoRuntime} `{ConfigTypes} {T : Type}.
Variable box : T → GoAny.

Lemma findMatch_matchPrecedence (cvs : list ConstrainedValue)
    (dcvs : list (TypedConstrainedValue T)) (prec : list Constraints) (v : GoAny) :
  findMatch box cvs dcvs prec = (v, None) → matchPrecedence box cvs dcvs prec = Some v.
Proof.
  unfold findMatch. case_decide; [discriminate |].
  destruct (matchPrecedence box cvs dcvs prec); [| discriminate]. by intros [= ->].
Qed.

Lemma matchPrecedence_app (cvs : list ConstrainedValue)
    (dcvs : list (TypedConstrainedValue T)) (p1 p2 : list Constraints) :
  matchPrecedence box cvs dcvs (p1 ++ p2) =
    match matchPrecedence box cvs dcvs p1 with
    | Some v => Some v
    | None => matchPrecedence box cvs dcvs p2
    end.
Proof.
  induction p1 as [|m p1 IH]; [reflexivity |].
  rewrite <- app_comm_cons, !matchPrecedence_step, IH.
  destruct (match matchCVs m cvs with Some v' => Some v' | None => _ end); reflexivity.
Qed.

(** X6: precedence lists compose by first success: looking up with
    [p1 ++ p2] gives what [p1] alone finds, and only when [p1] finds nothing
    what [p2] finds.  Constraints added at the end never change a lookup
    that already succeeds. *)
Theorem findMatch_app (cvs : list ConstrainedValue)
    (defaultCVs : list (TypedConstrainedValue T)) (p1 p2 : list Constraints) :
  findMatch box cvs defaultCVs (p1 ++ p2) =
    match findMatch box cvs defaultCVs p1 with
    | (v, None) => (v, None)
    | (_, Some _) => findMatch box cvs defaultCVs p2
    end.
Proof.
  unfold findMatch. case_decide; [reflexivity |].
  rewrite matchPrecedence_app.
  destruct (matchPrecedence box cvs defaultCVs p1); reflexivity.
Qed.

(** X7: a value [findMatch] returns is the value of an entry of one of the
    two lists, and that entry's constraints are in the precedence list;
    nothing is made up, and an entry whose constraints are not listed is
    never returned. *)
Theorem findMatch_value_listed (cvs : list ConstrainedValue)
    (defaultCVs : list (TypedConstrainedValue T)) (precedence : list Constraints)
    (v : GoAny) :
  findMatch box cvs defaultCVs precedence = (v, None) →
  (∃ cv, cv ∈ cvs ∧ cvConstraints cv ∈ precedence ∧ v = cvValue cv) ∨
  (∃ cv, cv ∈ defaultCVs ∧ tcvConstraints cv ∈ precedence ∧ v = box (tcvValue cv)).
Proof.
  intros Hf. apply findMatch_matchPrecedence in Hf.
  apply matchPrecedence_Some in Hf as (pre & m & post & -> & _ & Hfirst).
  assert (Hm : m ∈ pre ++ m :: post) by (apply elem_of_app; right; left).
  destruct Hfirst as [l1 cv l2 -> _ <- -> | l1 cv l2 _ -> _ <- ->]; [left | right];
    exists cv; (split; [apply elem_of_app; right; left | done]).
Qed.

(** X8: inside [matchAndConvert] the lookup reports [errKeyNotPresent]
    exactly when the client has no value for the key ([HasKey] is false) and
    the default list was given as an empty slice that is not nil.  With a
    nil list the default takes its place and the key always counts as
    present. *)
Theorem key_not_present_iff (c : Collection) (key : Key) (def : T)
    (cdef : option (list (TypedConstrainedValue T))) (precedence : list Constraints) :
  snd (findMatch box (client c key) (defaultsOf def cdef) precedence) = Some errKeyNotPresent
  ↔ HasKey c key = false ∧ cdef = Some [].
Proof.
  rewrite findMatch_error. unfold HasKey.
  split.
  - case_decide as He.
    + intros _. apply both_empty in He as [Hc Hd]. rewrite Hc. split; [reflexivity |].
      destruct cdef as [l|]; simpl in Hd; [by rewrite Hd | discriminate].
    + destruct (matchPrecedence box _ _ precedence); discriminate.
  - intros [Hk ->]. simpl.
    destruct (client c key) as [|cv l];
      [| apply bool_decide_eq_false in Hk; simpl in Hk; lia].
    rewrite decide_True by done. reflexivity.
Qed.

(** X9: the global fallback.  With a nil default list and the empty
    [Constraints{}] somewhere in the precedence list the lookup always finds
    a value, whatever the client returns; when the client returns nothing,
    the value found is the default [def] itself. *)
Theorem global_default_always_matches (cvs : list ConstrainedValue) (def : T)
    (precedence : list Constraints) :
  zeroConstraints ∈ precedence →
  snd (findMatch box cvs (defaultsOf def None) precedence) = None ∧
  findMatch box [] (defaultsOf def None) precedence = (box def, None).
Proof.
  intros Hin. apply list_elem_of_split in Hin as (p1 & p2 & ->).
  assert (Hzero : ∀ cvs', ¬ unmatched zeroConstraints cvs' (defaultsOf def None)).
  { intros cvs' [_ Hd]. simpl in Hd. apply Forall_cons in Hd as [Hd _]. by apply Hd. }
  split.
  - rewrite findMatch_error. rewrite decide_False by (simpl; lia).
    destruct (matchPrecedence box cvs (defaultsOf def None) (p1 ++ zeroConstraints :: p2))
      eqn:Hm; [reflexivity |].
    apply matchPrecedence_None, Forall_app in Hm as [_ Hm].
    apply Forall_cons in Hm as [Hm _]. by apply Hzero in Hm.
  - unfold findMatch. rewrite decide_False by (simpl; lia).
    destruct (matchPrecedence box [] (defaultsOf def None) (p1 ++ zeroConstraints :: p2))
      as [v|] eqn:Hm.
    + apply matchPrecedence_Some in Hm as (pre & m & post & _ & _ & Hfirst).
      destruct Hfirst as [l1 cv l2 Heq _ _ _ | l1 cv l2 _ Heq _ _ ->].
      * by destruct l1.
      * simpl in Heq. destruct l1 as [|? l1]; simpl in Heq.
        -- injection Heq as <- _. reflexivity.
        -- injection Heq as _ Heq. by destruct l1.
    + apply matchPrecedence_None, Forall_app in Hm as [_ Hm].
      apply Forall_cons in Hm as [Hm _]. by apply Hzero in Hm.
Qed.

(** The log after is the log before with a few lines added. *)
Ltac grown_log :=
  first
    [ exists []; rewrite app_nil_r; split; [reflexivity | split; [simpl; lia | done]]
    | rewrite <- ?app_assoc; eexists; split; [reflexivity | split; [simpl; lia | done]] ].

(** X10: what [matchAndConvert] leaves behind.  The client is untouched and
    the log only grows, by at most two lines.  When the lookup finds a value
    and the value converts, nothing is logged and the error counter stays;
    in every other case the counter goes up by exactly one (in [int64]). *)
Theorem matchAndConvert_effects (c : Collection) (key : Key) (def : T)
    (cdef : option (list (TypedConstrainedValue T)))
    (convert : GoAny → T * option error) (precedence : list Constraints) :
  let c' := snd (matchAndConvert box c key def cdef convert precedence) in
  let ok := matchedAndConverted box c key def cdef convert precedence in
  client c' = client c ∧
  (∃ new, logger c' = logger c ++ new ∧ (length new ≤ 2)%nat ∧
          if ok then new = [] else True) ∧
  errCount c' = if ok then errCount c else wrap_signed 64 (errCount c + 1).
Proof.
  cbv zeta. unfold matchAndConvert, matchedAndConverted, defaultsOf, throttleLog, logTo.
  destruct (findMatch box (client c key) _ precedence) as [val [e|]].
  - destruct ((_ <? _) || _); destruct (convert (box def)) as [tv [e'|]]; simpl;
      (split; [reflexivity |]); (split; [| reflexivity]); grown_log.
  - destruct (convert val) as [tv [e'|]]; simpl.
    + destruct ((_ <? _) || _); destruct (convert (box def)) as [tv' [e''|]]; simpl;
        (split; [reflexivity |]); (split; [| reflexivity]); grown_log.
    + split; [reflexivity |]. split; [| reflexivity]. grown_log.
Qed.

(** X11: a default that does not convert is always reported.  Whenever the
    result has to come from the default (nothing matched, or the matched
    value did not convert) and the default does not convert either, the last
    line of the log is the warning about the default, with the key and the
    conversion error; the throttle does not apply to it. *)
Theorem default_failure_is_logged (c : Collection) (key : Key) (def : T)
    (cdef : option (list (TypedConstrainedValue T)))
    (convert : GoAny → T * option error) (precedence : list Constraints)
    (err : error) :
  snd (convert (box def)) = Some err →
  matchedAndConverted box c key def cdef convert precedence = false →
  last (logger (snd (matchAndConvert box c key def cdef convert precedence))) =
    Some (cannotConvertDefault key err).
Proof.
  unfold matchAndConvert, matchedAndConverted, defaultsOf, throttleLog, logTo.
  intros Hdef.
  destruct (findMatch box (client c key) _ precedence) as [val [e|]].
  - intros _. destruct ((_ <? _) || _);
      destruct (convert (box def)) as [tv [e'|]]; simpl in *; try discriminate;
      injection Hdef as ->; apply last_snoc.
  - destruct (convert val) as [tv [e'|]]; [| discriminate]. intros _.
    destruct ((_ <? _) || _);
      destruct (convert (box def)) as [tv' [e''|]]; simpl in *; try discriminate;
      injection Hdef as ->; apply last_snoc.
Qed.

(** X12: with a converter that gives the default back, the result of
    [matchAndConvert] is the default itself or the conversion, without
    error, of the value the lookup found; a failed conversion never leaks a
    partial value. *)
Theorem matchAndConvert_default_or_match (c : Collection) (key : Key) (def : T)
    (cdef : option (list (TypedConstrainedValue T)))
    (convert : GoAny → T * option error) (precedence : list Constraints) :
  convert (box def) = (def, None) →
  fst (matchAndConvert box c key def cdef convert precedence) = def ∨
  ∃ val,
    findMatch box (client c key) (defaultsOf def cdef) precedence = (val, None) ∧
    convert val = (fst (matchAndConvert box c key def cdef convert precedence), None).
Proof.
  intros Hdef. rewrite matchAndConvert_value.
  destruct (findMatch box (client c key) (defaultsOf def cdef) precedence) as [val [e|]].
  - left. by rewrite Hdef.
  - destruct (convert val) as [tv [e'|]] eqn:Hc.
    + left. by rewrite Hdef.
    + right. exists val. done.
Qed.

Lemma throttleLog_at (c : Collection) (k : Z) :
  errCount c = k - 1 → 0 ≤ k < 2 ^ 63 →
  throttleLog c = (logged k, {| client := client c; logger := logger c; errCount := k |}).
Proof.
  intros Hc Hk. unfold throttleLog, logged.
  replace (errCount c + 1) with k by lia.
  rewrite wrap_signed_small by lia.
  rewrite Z.rem_mod_nonneg by (unfold errCountLogThreshold; lia). reflexivity.
Qed.

Lemma throttleLogs_from (n : nat) (c : Collection) (k : Z) :
  errCount c = k - 1 → 0 ≤ k → k + Z.of_nat n ≤ 2 ^ 63 →
  fst (throttleLogs n c) = map (λ i, logged (k + Z.of_nat i)) (seq 0 n) ∧
  errCount (snd (throttleLogs n c)) = k - 1 + Z.of_nat n ∧
  client (snd (throttleLogs n c)) = client c ∧
  logger (snd (throttleLogs n c)) = logger c.
Proof.
  revert c k. induction n as [|n IH]; intros c k Hc Hk Hn.
  - simpl. repeat split; lia.
  - cbn [throttleLogs]. rewrite (throttleLog_at c k) by lia.
    specialize (IH {| client := client c; logger := logger c; errCount := k |} (k + 1)).
    destruct (throttleLogs n _) as [bs c''] eqn:Ht. simpl in IH. simpl.
    destruct IH as (Hbs & He & Hcl & Hlg); [lia | lia | lia |].
    split; [| split; [lia | split; assumption]].
    rewrite <- seq_shift, map_map, Hbs. f_equal.
    + f_equal. lia.
    + apply map_ext. intros i. f_equal. lia.
Qed.

(** X13: the throttle of a new Collection.  Of the errors that reach
    [throttleLog], counted from 0, the [i]-th is let through exactly when
    [i < 1000] or [i] is a multiple of 1000: the first thousand, then one in
    every thousand (as long as the counter has not run over [int64]). *)
Theorem throttleLog_schedule (get : Key → list ConstrainedValue) (n : nat) :
  Z.of_nat n ≤ 2 ^ 63 →
  fst (throttleLogs n (NewCollection get)) = map (λ i, logged (Z.of_nat i)) (seq 0 n).
Proof.
  intros Hn.
  destruct (throttleLogs_from n (NewCollection get) 0) as (Hbs & _);
    [reflexivity | lia | lia |].
  rewrite Hbs. apply map_ext. intros i. f_equal.
Qed.

(** X14: the value [matchAndConvert] returns does not depend on the error
    counter or on what was logged before: it is the value a new Collection
    over the same client returns.  Throttling changes what is logged, never
    what is returned. *)
Theorem matchAndConvert_value_ignores_log (c : Collection) (key : Key) (def : T)
    (cdef : option (list (TypedConstrainedValue T)))
    (convert : GoAny → T * option error) (precedence : list Constraints) :
  fst (matchAndConvert box c key def cdef convert precedence) =
  fst (matchAndConvert box (NewCollection (client c)) key def cdef convert precedence).
Proof. rewrite !matchAndConvert_value. reflexivity. Qed.

End LookupFacts.

Section LookupWitnesses.
#[local] Existing Instance exampleRuntime.
#[local] Existing Instance exampleTypes.

Lemma findMatch_value_listed_witness :
  findMatch AInt [nsValue "" 1; nsValue "ns" 2] [nsDefault "ns" 3] ["ns"; ""]%string
    = (AInt 2, None) ∧
  ((∃ cv, cv ∈ [nsValue "" 1; nsValue "ns" 2] ∧
          cvConstraints cv ∈ ["ns"; ""]%string ∧ AInt 2 = cvValue cv) ∨
   (∃ cv, cv ∈ [nsDefault "ns" 3] ∧
          tcvConstraints cv ∈ ["ns"; ""]%string ∧ AInt 2 = AInt (tcvValue cv))).
Proof.
  split; [reflexivity |].
  exact (findMatch_value_listed AInt [nsValue "" 1; nsValue "ns" 2] [nsDefault "ns" 3]
           ["ns"; ""]%string (AInt 2) eq_refl).
Defined.

Lemma global_default_witness :
  zeroConstraints ∈ ["ns"; EmptyString] ∧
  snd (findMatch AInt [nsValue "other" 1] (defaultsOf 7 None) ["ns"; EmptyString]) = None ∧
  findMatch AInt [] (defaultsOf 7 None) ["ns"; EmptyString] = (AInt 7, None).
Proof.
  assert (Hin : zeroConstraints ∈ ["ns"; EmptyString]) by repeat constructor.
  split; [exact Hin |].
  exact (global_default_always_matches AInt [nsValue "other" 1] 7 ["ns"; EmptyString] Hin).
Defined.

Lemma default_failure_witness :
  let refuse := λ _ : GoAny, (0, Some (errorsNew "unsupported")) in
  let c := NewCollection (λ _, []) in
  snd (refuse (AInt 7)) = Some (errorsNew "unsupported") ∧
  matchedAndConverted AInt c "key"%string 7 None refuse ["ns"%string] = false ∧
  last (logger (snd (matchAndConvert AInt c "key"%string 7 None refuse ["ns"%string]))) =
    Some (cannotConvertDefault "key"%string (errorsNew "unsupported")).
Proof.
  cbv zeta. split; [reflexivity |]. split; [reflexivity |].
  exact (default_failure_is_logged AInt (NewCollection (λ _, [])) "key"%string 7 None
           (λ _ : GoAny, (0, Some (errorsNew "unsupported"))) ["ns"%string]
           (errorsNew "unsupported") eq_refl eq_refl).
Defined.

Lemma default_or_match_witness :
  let c := NewCollection (λ _, [nsValue "ns" 2]) in
  convertInt (AInt 7) = (7, None) ∧
  (fst (matchAndConvert AInt c "key"%string 7 None convertInt ["ns"%string]) = 7 ∨
   ∃ val,
     findMatch AInt (client c "key"%string) (defaultsOf 7 None) ["ns"%string] = (val, None) ∧
     convertInt val =
       (fst (matchAndConvert AInt c "key"%string 7 None convertInt ["ns"%string]), None)).
Proof.
  cbv zeta. split; [reflexivity |].
  exact (matchAndConvert_default_or_match AInt (NewCollection (λ _, [nsValue "ns" 2]))
           "key"%string 7 None convertInt ["ns"%string] eq_refl).
Defined.

Lemma throttleLog_schedule_witness :
  Z.of_nat 3 ≤ 2 ^ 63 ∧
  fst (throttleLogs 3 (NewCollection (λ _, []))) =
    map (λ i, logged (Z.of_nat i)) (seq 0 3).
Proof.
  assert (Hn : Z.of_nat 3 ≤ 2 ^ 63) by (vm_compute; discriminate).
  split; [exact Hn |].
  exact (throttleLog_schedule (λ _, []) 3 Hn).
Defined.

(** The thousandth error is still logged, the next one is not, and then
    every thousandth. *)
Example throttle_around_the_threshold :
  map logged [0; 999; 1000; 1001; 1999; 2000] = [true; true; true; false; false; true].
Proof. vm_compute. reflexivity. Qed.

End LookupWitnesses.

End DynamicConfigProofs.

Module ShardProofs.
Import Shard.

Lemma withCtx_same (w : World) : withCtx (ctx w) w = w.
Proof. destruct w; reflexivity. Qed.

Lemma terminal_errorByState (c : Context) :
  terminal (status c) → errorByState c = Some OwnershipLost.
Proof. unfold errorByState. intros [-> | ->]; reflexivity. Qed.

Lemma terminal_stop (c : Context) : terminal (status c) → stop c = c.
Proof. unfold stop. intros [-> | ->]; reflexivity. Qed.

Lemma stop_terminal (c : Context) : terminal (status (stop c)).
Proof.
  unfold stop. destruct (status c) eqn:Hs; simpl; rewrite ?Hs;
    [right | right | left | right]; reflexivity.
Qed.

(** A call on an [Invalid] or [Stopped] Context: with an error result it
    fails with [OwnershipLost] and changes nothing; without one it returns,
    and leaves the state of the Context, its tracked state, the store and
    the requests as they are. *)
Lemma call_terminal (c : Call) (w : World) :
  terminal (status (ctx w)) →
  fst (call c w) = (if returnsError c then Failed OwnershipLost else Returned VUnit) ∧
  (returnsError c = true → snd (call c w) = w) ∧
  status (ctx (snd (call c w))) = status (ctx w) ∧
  shardInfo (ctx (snd (call c w))) = shardInfo (ctx w) ∧
  store (snd (call c w)) = store w ∧
  requests (snd (call c w)) = requests w.
Proof.
  intros Ht. pose proof (terminal_errorByState _ Ht) as He.
  destruct c; simpl; unfold gated; rewrite ?He; simpl; try done.
  - destruct (staleAck _ _ _); simpl; done.
  - rewrite terminal_stop by done. rewrite withCtx_same. done.
  - rewrite terminal_stop by done. rewrite withCtx_same. done.
Qed.

Lemma step_terminal (e : Event) (w : World) :
  terminal (status (ctx w)) →
  status (ctx (snd (step e w))) = status (ctx w) ∧
  shardInfo (ctx (snd (step e w))) = shardInfo (ctx w) ∧
  requests (snd (step e w)) = requests w ∧
  store (snd (step e w)) = competitorsOnly [e] (store w).
Proof.
  intros Ht. destruct e as [c| | |o]; simpl.
  - destruct (call_terminal c w Ht) as (_ & _ & Hs & Hi & Hst & Hr).
    destruct (call c w) as [r w']. simpl in *. done.
  - unfold loadShard. destruct Ht as [Hs | Hs]; rewrite Hs; done.
  - unfold acquire. destruct Ht as [Hs | Hs]; rewrite Hs; done.
  - done.
Qed.

Lemma run_cons (e : Event) (evs : list Event) (w : World) :
  run (e :: evs) w =
    (match fst (step e w) with Some cr => [cr] | None => [] end
       ++ fst (run evs (snd (step e w))),
     snd (run evs (snd (step e w)))).
Proof.
  simpl. destruct (step e w) as [o w']. simpl.
  destruct (run evs w') as [tr w'']. destruct o; reflexivity.
Qed.


Lemma issuedTaskIDs_app (t1 t2 : list (Call * Result)) :
  issuedTaskIDs (t1 ++ t2) = issuedTaskIDs t1 ++ issuedTaskIDs t2.
Proof. unfold issuedTaskIDs. by rewrite map_app, concat_app. Qed.


Lemma run_calls (evs : list Event) (w : World) :
  map fst (fst (run evs w)) = callsOf evs.
Proof.
  revert w. induction evs as [|e evs IH]; intros w; [reflexivity |].
  rewrite run_cons. simpl fst. rewrite map_app, IH.
  destruct e as [c| | |o]; simpl; try reflexivity.
  destruct (call c w); reflexivity.
Qed.

Lemma run_terminal (evs : list Event) (w : World) :
  terminal (status (ctx w)) →
  status (ctx (snd (run evs w))) = status (ctx w) ∧
  shardInfo (ctx (snd (run evs w))) = shardInfo (ctx w) ∧
  requests (snd (run evs w)) = requests w ∧
  store (snd (run evs w)) = competitorsOnly evs (store w) ∧
  Forall (λ cr, snd cr = if returnsError (fst cr) then Failed OwnershipLost
                         else Returned VUnit) (fst (run evs w)) ∧
  issuedTaskIDs (fst (run evs w)) = [].
Proof.
  revert w. induction evs as [|e evs IH]; intros w Ht.
  - simpl. repeat split; constructor.
  - rewrite run_cons. simpl fst. simpl snd.
    destruct (step_terminal e w Ht) as (Hc & Hi & Hr & Hs).
    assert (Ht' : terminal (status (ctx (snd (step e w))))) by (by rewrite Hc).
    destruct (IH _ Ht') as (Hc' & Hi' & Hr' & Hs' & Hall & Hids).
    rewrite Hc', Hi', Hr', Hs', Hc, Hi, Hr, Hs, issuedTaskIDs_app, Hids.
    repeat split.
    + destruct e; reflexivity.
    + apply Forall_app. split; [| exact Hall].
      destruct e as [c| | |o]; simpl; try constructor.
      destruct (call_terminal c w Ht) as (Hres & _).
      destruct (call c w) as [r w']. simpl in *. repeat constructor. exact Hres.
    + destruct e as [c| | |o]; simpl; try reflexivity.
      destruct (call_terminal c w Ht) as (Hres & _).
      destruct (call c w) as [r w']. simpl in *. subst r.
      destruct c; reflexivity.
Qed.

Lemma persistShardInfo_spec (i : ShardInfo) (w : World) :
  match persistShardInfo i w with
  | (Returned v, w') =>
      v = VUnit ∧ fenceHolds w ∧ ctx w' = setShardInfo i (ctx w) ∧
      persistedInfo (store w') = i ∧
      persistedRangeID (store w') = persistedRangeID (store w)
  | (Failed e, w') =>
      e = OwnershipLost ∧ ¬ fenceHolds w ∧ ctx w' = setStatus Invalid (ctx w) ∧
      store w' = store w
  end.
Proof.
  unfold persistShardInfo, conditionalUpdate, fenceHolds. simpl.
  case_decide; simpl; done.
Qed.

Lemma fencedRoundTrip_spec (r : Request) (w : World) :
  match fencedRoundTrip r w with
  | (Returned v, w') => v = VUnit ∧ fenceHolds w ∧ ctx w' = ctx w ∧ store w' = store w
  | (Failed e, w') =>
      e = OwnershipLost ∧ ¬ fenceHolds w ∧ ctx w' = setStatus Invalid (ctx w) ∧
      store w' = store w
  end.
Proof.
  unfold fencedRoundTrip, fenceHolds. simpl. case_decide; simpl; done.
Qed.

Lemma AcquireOrRenew_fails (w : World) :
  match AcquireOrRenew w with
  | (Some e, w') => e = OwnershipLost ∧ status (ctx w') = Invalid
  | (None, w') => status (ctx w') = Active
  end.
Proof. unfold AcquireOrRenew, conditionalUpdate. simpl. case_decide; simpl; done. Qed.

Lemma generateTaskIDLocked_fails (w : World) :
  match generateTaskIDLocked w with
  | (inr e, w') => e = OwnershipLost ∧ status (ctx w') = Invalid
  | (inl _, _) => True
  end.
Proof.
  unfold generateTaskIDLocked. simpl. case_decide; [| done].
  case_decide; [done |].
  pose proof (AcquireOrRenew_fails (sent (ReqPresentRange (rangeID (ctx w))) w)) as Hr.
  destruct (AcquireOrRenew _) as [[e|] w']; done.
Qed.

Lemma generateTaskIDsLocked_fails (n : nat) (w : World) :
  match generateTaskIDsLocked n w with
  | (inr e, w') => e = OwnershipLost ∧ status (ctx w') = Invalid
  | (inl _, _) => True
  end.
Proof.
  revert w. induction n as [|n IH]; intros w; simpl; [done |].
  pose proof (generateTaskIDLocked_fails w) as H1.
  destruct (generateTaskIDLocked w) as [[id|e] w1]; [| exact H1].
  specialize (IH w1). destruct (generateTaskIDsLocked n w1) as [[ids|e] w2]; done.
Qed.

(** Whatever the state before, a call that fails with [OwnershipLost]
    leaves the Context [Invalid] or [Stopped]: a rejected fence is the way
    into [Invalid]. *)
Lemma call_OwnershipLost_terminal (c : Call) (w : World) :
  fst (call c w) = Failed OwnershipLost → terminal (status (ctx (snd (call c w)))).
Proof.
  assert (Hgate : ∀ k : World → Result * World,
    (∀ w0, fst (k w0) = Failed OwnershipLost → terminal (status (ctx (snd (k w0))))) →
    fst (gated w k) = Failed OwnershipLost → terminal (status (ctx (snd (gated w k))))).
  { intros k Hk. unfold gated, errorByState.
    destruct (status (ctx w)) eqn:Hs; simpl; try done.
    - apply Hk.
    - intros _. rewrite Hs. by left.
    - intros _. rewrite Hs. by right. }
  assert (Hpersist : ∀ i w0, fst (persistShardInfo i w0) = Failed OwnershipLost →
            terminal (status (ctx (snd (persistShardInfo i w0))))).
  { intros i w0. pose proof (persistShardInfo_spec i w0) as Hp.
    destruct (persistShardInfo i w0) as [[v|e] w']; simpl; [done |].
    destruct Hp as (_ & _ & -> & _). intros _. by left. }
  assert (Hround : ∀ r w0, fst (fencedRoundTrip r w0) = Failed OwnershipLost →
            terminal (status (ctx (snd (fencedRoundTrip r w0))))).
  { intros r w0. pose proof (fencedRoundTrip_spec r w0) as Hp.
    destruct (fencedRoundTrip r w0) as [[v|e] w']; simpl; [done |].
    destruct Hp as (_ & _ & -> & _). intros _. by left. }
  assert (Hgen : ∀ (f : Z → Value) w0,
            fst (match generateTaskIDLocked w0 with
                 | (inl id, w') => (Returned (f id), w')
                 | (inr e, w') => (Failed e, w')
                 end) = Failed OwnershipLost →
            terminal (status (ctx (snd (match generateTaskIDLocked w0 with
                 | (inl id, w') => (Returned (f id), w')
                 | (inr e, w') => (Failed e, w')
                 end))))).
  { intros f w0. pose proof (generateTaskIDLocked_fails w0) as Hg.
    destruct (generateTaskIDLocked w0) as [[id|e] w']; simpl; [done |].
    destruct Hg as [_ ->]. intros _. by left. }
  destruct c; simpl; try (apply Hgate; intros w0; simpl; try done); try done.
  - apply Hround.
  - pose proof (generateTaskIDLocked_fails w0) as Hg.
    destruct (generateTaskIDLocked w0) as [[id|e] w']; simpl; [done |].
    destruct Hg as [_ ->]. intros _. by left.
  - apply (Hgen VInt).
  - pose proof (generateTaskIDsLocked_fails (Z.to_nat number) w0) as Hg.
    destruct (generateTaskIDsLocked (Z.to_nat number) w0) as [[ids|e] w']; simpl; [done |].
    destruct Hg as [_ ->]. intros _. by left.
  - destruct (lowersWatermark _ _); [done | apply Hpersist].
  - destruct (lowersReader _ _); [done | apply Hpersist].
  - destruct (staleLevel _ _); [done | apply Hpersist].
  - destruct (staleAck _ _ _); done.
  - destruct (staleAck _ _ _); [done | apply Hpersist].
  - apply Hround.
Qed.

(** C2: once the Context is [Invalid] or [Stopped] (it gets there by a call
    that fails with [OwnershipLost], a rejected fence among them, or by
    [UnloadForOwnershipLost] or [FinishStop]), in every run of calls and
    outside events that follows, every call that can return an error fails
    with [OwnershipLost]; the Context sends no request to the storage
    engine, the store changes only by what other owners do, the tracked
    state of the Context stays, no task ID is returned, and the state of the
    Context never changes again. *)
Theorem terminal_context_fails_fast (evs : list Event) (w : World) :
  terminal (status (ctx w)) →
  (map fst (fst (run evs w)) = callsOf evs ∧
   Forall (λ cr, returnsError (fst cr) = true → snd cr = Failed OwnershipLost)
     (fst (run evs w)) ∧
   requests (snd (run evs w)) = requests w ∧
   store (snd (run evs w)) = competitorsOnly evs (store w) ∧
   shardInfo (ctx (snd (run evs w))) = shardInfo (ctx w) ∧
   issuedTaskIDs (fst (run evs w)) = [] ∧
   status (ctx (snd (run evs w))) = status (ctx w)) ∧
  (∀ (c : Call) (w0 : World),
     fst (call c w0) = Failed OwnershipLost → terminal (status (ctx (snd (call c w0))))) ∧
  (∀ w0 : World,
     terminal (status (ctx (snd (call UnloadForOwnershipLost w0)))) ∧
     terminal (status (ctx (snd (call FinishStop w0))))).
Proof.
  intros Ht. destruct (run_terminal evs w Ht) as (Hc & Hi & Hr & Hs & Hall & Hids).
  split; [| split].
  - repeat split; try done.
    + apply run_calls.
    + eapply Forall_impl; [exact Hall |]. intros [c r]; simpl. intros -> ->. reflexivity.
  - apply call_OwnershipLost_terminal.
  - intros w0. simpl. split; apply stop_terminal.
Qed.

(** *** Task IDs *)


















(** A renewal inside a call: the last ID of the block and the first two of
    the next one; the persisted range ID has moved from 4 to 5. *)
Example renewal_inside_a_call :
  map snd (fst (run [EvCall (GenerateTaskIDs 999); EvCall (GenerateTaskIDs 3)] ownedWorld)) =
    [Returned (VInts (seqZ 4000 999)); Returned (VInts [4999; 5000; 5001])] ∧
  persistedRangeID
    (store (snd (run [EvCall (GenerateTaskIDs 999); EvCall (GenerateTaskIDs 3)]
                   ownedWorld))) = 5.
Proof. vm_compute. split; reflexivity. Qed.


(** *** The scenario of shard 7 *)

(** C7: with persisted range ID 3 and range size 1000 for shard 7, the
    acquisition persists range ID 4 and the Context owns exactly the block
    from 4000 up to 5000 (1000 IDs are served under range 4, the next one
    needs range 5); [GenerateTaskIDs(3)] returns 4000, 4001, 4002; after
    another owner has moved the range ID to 5, the next [GenerateTaskID] of
    the original Context fails with [OwnershipLost]. *)
Theorem shard7_scenario :
  let acquired := [EvLoadShard; EvAcquire] in
  let taken := acquired ++ [EvCall (GenerateTaskIDs 3); EvCompetingAcquire "host-b"] in
  (shardID (ctx shard7World) = 7 ∧ rangeSize (ctx shard7World) = 1000 ∧
   persistedRangeID (store shard7World) = 3) ∧
  (persistedRangeID (store ownedWorld) = 4 ∧
   status (ctx ownedWorld) = Active ∧ rangeID (ctx ownedWorld) = 4 ∧
   taskCursor (ctx ownedWorld) = 4000 ∧ blockEnd (ctx ownedWorld) = 5000) ∧
  (fst (call (GenerateTaskIDs 1000) ownedWorld) = Returned (VInts (seqZ 4000 1000)) ∧
   persistedRangeID (store (snd (call (GenerateTaskIDs 1000) ownedWorld))) = 4 ∧
   persistedRangeID (store (snd (call (GenerateTaskIDs 1001) ownedWorld))) = 5) ∧
  fst (run (acquired ++ [EvCall (GenerateTaskIDs 3)]) shard7World) =
    [(GenerateTaskIDs 3, Returned (VInts [4000; 4001; 4002]))] ∧
  persistedRangeID (store (snd (run taken shard7World))) = 5 ∧
  fst (run (taken ++ [EvCall GenerateTaskID]) shard7World) =
    [(GenerateTaskIDs 3, Returned (VInts [4000; 4001; 4002]));
     (GenerateTaskID, Failed OwnershipLost)] ∧
  status (ctx (snd (run (taken ++ [EvCall GenerateTaskID]) shard7World))) = Invalid.
Proof. vm_compute. repeat split; reflexivity. Qed.

(** An acquisition that lost the race: the record moved between the load
    and the conditional write. *)
Example acquisition_can_fail :
  status (ctx (snd (run [EvLoadShard; EvCompetingAcquire "host-b"; EvAcquire] shard7World)))
    = Invalid.
Proof. vm_compute. reflexivity. Qed.

(** *** The terminal states *)

Lemma terminal_witness :
  terminal (status (ctx stoppedWorld)) ∧
  let evs := [EvCall GenerateTaskID; EvCompetingAcquire "host-b";
              EvCall (SetQueueState CategoryTimer 0 (readerAt 1));
              EvCall (Execution AddTasks); EvCall AssertOwnership;
              EvCall (UpdateRemoteClusterInfo "clusterB" 100 1)] in
  map fst (fst (run evs stoppedWorld)) = callsOf evs ∧
  Forall (λ cr, returnsError (fst cr) = true → snd cr = Failed OwnershipLost)
    (fst (run evs stoppedWorld)) ∧
  requests (snd (run evs stoppedWorld)) = requests stoppedWorld ∧
  store (snd (run evs stoppedWorld)) = competitorsOnly evs (store stoppedWorld) ∧
  shardInfo (ctx (snd (run evs stoppedWorld))) = shardInfo (ctx stoppedWorld) ∧
  issuedTaskIDs (fst (run evs stoppedWorld)) = [] ∧
  status (ctx (snd (run evs stoppedWorld))) = status (ctx stoppedWorld).
Proof.
  split; [right; reflexivity |].
  apply terminal_context_fails_fast. right. reflexivity.
Defined.

(** What the calls of that run hand back. *)
Example stopped_context_results :
  map snd (fst (run [EvCall GenerateTaskID; EvCompetingAcquire "host-b";
                     EvCall (SetQueueState CategoryTimer 0 (readerAt 1));
                     EvCall (Execution AddTasks); EvCall AssertOwnership] stoppedWorld)) =
    [Failed OwnershipLost; Failed OwnershipLost; Failed OwnershipLost;
     Failed OwnershipLost].
Proof. vm_compute. reflexivity. Qed.

(** *** Tracked state: acknowledgements and watermarks *)

Lemma levelLe_refl (l : option Z) : levelLe l l.
Proof. destruct l; simpl; [lia | exact I]. Qed.

Lemma levelLe_trans (a b c : option Z) : levelLe a b → levelLe b c → levelLe a c.
Proof. destruct a, b, c; simpl; try done; lia. Qed.

Lemma infoLe_refl (i : ShardInfo) : infoLe i i.
Proof. repeat split; intros; apply levelLe_refl. Qed.

Lemma infoLe_trans (i1 i2 i3 : ShardInfo) : infoLe i1 i2 → infoLe i2 i3 → infoLe i1 i3.
Proof.
  intros (Hw & Hd & Hr) (Hw' & Hd' & Hr').
  repeat split; intros; eapply levelLe_trans; eauto.
Qed.

(** A queue state that does not carry a lower watermark keeps every
    reader's watermark. *)
Lemma keeps_watermark (old new : QueueState) (r : Z) :
  lowersWatermark (Some old) new = false →
  levelLe (ackWatermark <$> readerStates old !! r) (ackWatermark <$> readerStates new !! r).
Proof.
  unfold lowersWatermark. intros Hk. apply negb_false_iff, bool_decide_eq_true in Hk.
  destruct (readerStates old !! r) as [rs|] eqn:Hr; simpl; [| exact I].
  specialize (Hk r rs Hr). unfold keepsReader in Hk. simpl in Hk.
  destruct (readerStates new !! r) as [rs'|]; simpl; [| done].
  by apply bool_decide_eq_true in Hk.
Qed.

Lemma setQueueState_infoLe (i : ShardInfo) (category : Category) (state : QueueState) :
  lowersWatermark (queueStates i !! category) state = false →
  infoLe i (setQueueStates (<[category := state]> (queueStates i)) i).
Proof.
  intros Hk. repeat split; intros; simpl; try apply levelLe_refl.
  unfold watermarkOf. simpl.
  destruct (decide (category = category0)) as [<- | Hne].
  - rewrite lookup_insert_eq. simpl.
    destruct (queueStates i !! category) as [old|] eqn:Ho; simpl; [| exact I].
    by apply keeps_watermark.
  - rewrite lookup_insert_ne by done. apply levelLe_refl.
Qed.

Lemma setReaderState_infoLe (i : ShardInfo) (readerID : Z) (rs : ReaderState) :
  let q := default freshQueueState (queueStates i !! CategoryReplication) in
  lowersReader (readerStates q !! readerID) rs = false →
  infoLe i
    (setQueueStates
       (<[CategoryReplication :=
            {| exclusiveHighWatermark := exclusiveHighWatermark q;
               readerStates := <[readerID := rs]> (readerStates q) |}]> (queueStates i)) i).
Proof.
  cbv zeta. intros Hk. repeat split; intros; simpl; try apply levelLe_refl.
  unfold watermarkOf. simpl.
  destruct (decide (CategoryReplication = category)) as [<- | Hne].
  - rewrite lookup_insert_eq. simpl.
    destruct (queueStates i !! CategoryReplication) as [old|] eqn:Ho; simpl; [| exact I].
    simpl in Hk.
    destruct (decide (readerID = reader)) as [<- | Hr].
    + rewrite lookup_insert_eq. simpl.
      destruct (readerStates old !! readerID) as [o|]; simpl in *; [| exact I].
      apply Z.ltb_ge in Hk. exact Hk.
    + rewrite lookup_insert_ne by done. apply levelLe_refl.
  - rewrite lookup_insert_ne by done. apply levelLe_refl.
Qed.

Lemma setDlq_infoLe (i : ShardInfo) (cl : string) (a : Z) :
  staleLevel (dlqAckLevels i !! cl) a = false →
  infoLe i (setDlqAckLevels (<[cl := a]> (dlqAckLevels i)) i).
Proof.
  intros Hk. repeat split; intros; simpl; try apply levelLe_refl.
  destruct (decide (cl = cl0)) as [<- | Hne].
  - rewrite lookup_insert_eq.
    destruct (dlqAckLevels i !! cl) as [o|]; simpl in *; [| exact I].
    apply Z.ltb_ge in Hk. exact Hk.
  - rewrite lookup_insert_ne by done. apply levelLe_refl.
Qed.

Lemma fresh_ack_level (m : gmap string AckInfo) (cl cl' : string) (a t : Z) :
  staleAck (m !! cl) a t = false →
  levelLe (ackTaskID <$> m !! cl')
    (ackTaskID <$> <[cl := {| ackTaskID := a; ackTimestamp := t |}]> m !! cl').
Proof.
  intros Hk. destruct (decide (cl = cl')) as [<- | Hne].
  - rewrite lookup_insert_eq.
    destruct (m !! cl) as [o|]; simpl in *; [| exact I].
    apply orb_false_iff in Hk as [Hk _]. apply Z.ltb_ge in Hk. exact Hk.
  - rewrite lookup_insert_ne by done. apply levelLe_refl.
Qed.

Lemma setReaderInfo_infoLe (i : ShardInfo) (r a t : Z) :
  staleAck (readerInfos i !! r) a t = false →
  infoLe i (setReaderInfos (<[r := {| ackTaskID := a; ackTimestamp := t |}]> (readerInfos i)) i).
Proof.
  intros Hk. repeat split; intros; simpl; try apply levelLe_refl.
  destruct (decide (r = r0)) as [<- | Hne].
  - rewrite lookup_insert_eq.
    destruct (readerInfos i !! r) as [o|]; simpl in *; [| exact I].
    apply orb_false_iff in Hk as [Hk _]. apply Z.ltb_ge in Hk. exact Hk.
  - rewrite lookup_insert_ne by done. apply levelLe_refl.
Qed.

Lemma AcquireOrRenew_tracked (w : World) : sameTracked w (snd (AcquireOrRenew w)).
Proof. unfold AcquireOrRenew, conditionalUpdate. simpl. case_decide; done. Qed.

Lemma generateTaskIDLocked_tracked (w : World) :
  sameTracked w (snd (generateTaskIDLocked w)).
Proof.
  unfold generateTaskIDLocked. simpl. case_decide; [| done].
  case_decide; [done |].
  pose proof (AcquireOrRenew_tracked (sent (ReqPresentRange (rangeID (ctx w))) w)) as Ha.
  destruct (AcquireOrRenew _) as [[e|] w']; simpl in *; done.
Qed.

Lemma generateTaskIDsLocked_tracked (n : nat) (w : World) :
  sameTracked w (snd (generateTaskIDsLocked n w)).
Proof.
  revert w. induction n as [|n IH]; intros w; simpl; [done |].
  pose proof (generateTaskIDLocked_tracked w) as (H1 & H2 & H3).
  destruct (generateTaskIDLocked w) as [[id|e] w1]; simpl in *; [| done].
  destruct (IH w1) as (H4 & H5 & H6).
  destruct (generateTaskIDsLocked n w1) as [[ids|e] w2]; simpl in *;
    repeat split; congruence.
Qed.

Lemma keptBy_sameTracked (w w' : World) : sameTracked w w' → keptBy w w'.
Proof.
  intros (Hi & Hm & Hp). unfold keptBy, synced. rewrite Hi, Hm, Hp.
  split; [apply infoLe_refl |]. split; [intros; apply levelLe_refl | done].
Qed.

Lemma keptBy_persist (i : ShardInfo) (w : World) :
  infoLe (shardInfo (ctx w)) i → keptBy w (snd (persistShardInfo i w)).
Proof.
  intros Hle. pose proof (persistShardInfo_spec i w) as Hp.
  destruct (persistShardInfo i w) as [[v|e] w']; simpl.
  - destruct Hp as (_ & _ & Hc & Hpi & _). unfold keptBy, synced. rewrite Hc, Hpi. simpl.
    split; [exact Hle |]. split; [intros; apply levelLe_refl | done].
  - destruct Hp as (_ & _ & Hc & Hs). apply keptBy_sameTracked.
    unfold sameTracked. rewrite Hc, Hs. done.
Qed.

Lemma call_kept (c : Call) (w : World) : keptBy w (snd (call c w)).
Proof.
  assert (Hsame : keptBy w w) by (apply keptBy_sameTracked; done).
  assert (Hround : ∀ r, keptBy w (snd (fencedRoundTrip r w))).
  { intros r. apply keptBy_sameTracked. unfold fencedRoundTrip. simpl.
    case_decide; done. }
  assert (Hstop : keptBy w (withCtx (stop (ctx w)) w)).
  { apply keptBy_sameTracked. unfold stop. destruct (status (ctx w)); done. }
  assert (Hone : ∀ (f : Z → Value),
    keptBy w (snd (match generateTaskIDLocked w with
                   | (inl id, w') => (Returned (f id), w')
                   | (inr e, w') => (Failed e, w')
                   end))).
  { intros f. pose proof (generateTaskIDLocked_tracked w) as Ht.
    destruct (generateTaskIDLocked w) as [[id|e] w']; by apply keptBy_sameTracked. }
  destruct c; simpl; unfold gated; try exact Hstop;
    try (destruct (errorByState (ctx w)); simpl; [exact Hsame |]);
    try exact Hsame; try apply Hround.
  - (* NewVectorClock *)
    pose proof (generateTaskIDLocked_tracked w) as Ht.
    destruct (generateTaskIDLocked w) as [[id|e] w']; by apply keptBy_sameTracked.
  - (* GenerateTaskID *)
    apply (Hone VInt).
  - (* GenerateTaskIDs *)
    pose proof (generateTaskIDsLocked_tracked (Z.to_nat number) w) as Ht.
    destruct (generateTaskIDsLocked (Z.to_nat number) w) as [[ids|e] w'];
      by apply keptBy_sameTracked.
  - (* SetQueueState *)
    destruct (lowersWatermark _ _) eqn:Hl; [done |].
    apply keptBy_persist. by apply setQueueState_infoLe.
  - (* UpdateReplicationQueueReaderState *)
    destruct (lowersReader _ _) eqn:Hl; [done |].
    apply keptBy_persist. by apply setReaderState_infoLe.
  - (* UpdateReplicatorDLQAckLevel *)
    destruct (staleLevel _ _) eqn:Hl; [done |].
    apply keptBy_persist. by apply setDlq_infoLe.
  - (* UpdateRemoteClusterInfo *)
    destruct (staleAck _ _ _) eqn:Hl; [done |]. simpl.
    split; [apply infoLe_refl |]. split; [| done].
    intros cl. by apply fresh_ack_level.
  - (* UpdateRemoteReaderInfo *)
    destruct (staleAck _ _ _) eqn:Hl; [done |].
    apply keptBy_persist. by apply setReaderInfo_infoLe.
Qed.

Lemma step_kept (e : Event) (w : World) : synced w → keptBy w (snd (step e w)).
Proof.
  intros Hsync. destruct e as [c| | |o]; simpl.
  - pose proof (call_kept c w) as Hk. destruct (call c w); exact Hk.
  - unfold loadShard. destruct (status (ctx w)); simpl; apply keptBy_sameTracked; done.
  - unfold acquire. pose proof (AcquireOrRenew_tracked w).
    destruct (status (ctx w)); simpl; by apply keptBy_sameTracked.
  - apply keptBy_sameTracked. done.
Qed.

Lemma run_kept (evs : list Event) (w : World) : synced w → keptBy w (snd (run evs w)).
Proof.
  revert w. induction evs as [|e evs IH]; intros w Hsync.
  - simpl. apply keptBy_sameTracked. done.
  - rewrite run_cons. simpl snd.
    destruct (step_kept e w Hsync) as (Hi & Hm & Hs).
    destruct (IH (snd (step e w)) (Hs Hsync)) as (Hi' & Hm' & Hs').
    split; [eapply infoLe_trans; eauto |].
    split; [intros cl; eapply levelLe_trans; eauto | auto].
Qed.

Lemma recordedAt_kept (k : AckKey) (w w' : World) :
  keptBy w w' → levelLe (recordedAt k w) (recordedAt k w').
Proof.
  intros ((_ & Hd & Hr) & Hm & _). destruct k; simpl; auto.
Qed.

(** *** One acknowledgement update *)

Lemma persistShardInfo_accepted (i : ShardInfo) (w : World) :
  fenceHolds w →
  persistShardInfo i w =
    (Returned VUnit,
     {| ctx := setShardInfo i (ctx w);
        store := {| persistedRangeID := persistedRangeID (store w);
                    persistedOwner := persistedOwner (store w); persistedInfo := i |};
        requests := requests w ++ [ReqUpdateShard (rangeID (ctx w))] |}).
Proof.
  unfold persistShardInfo, conditionalUpdate, fenceHolds. simpl. intros Hf.
  case_decide; done.
Qed.

Lemma persistShardInfo_rejected (i : ShardInfo) (w : World) :
  ¬ fenceHolds w →
  persistShardInfo i w =
    (Failed OwnershipLost,
     {| ctx := setStatus Invalid (ctx w); store := store w;
        requests := requests w ++ [ReqUpdateShard (rangeID (ctx w))] |}).
Proof.
  unfold persistShardInfo, conditionalUpdate, fenceHolds. simpl. intros Hf.
  case_decide; done.
Qed.

Lemma gated_active (w : World) (k : World → Result * World) :
  status (ctx w) = Active → gated w k = k w.
Proof. unfold gated, errorByState. by intros ->. Qed.

Lemma gated_inactive (w : World) (k : World → Result * World) :
  status (ctx w) ≠ Active → snd (gated w k) = w.
Proof. unfold gated, errorByState. destruct (status (ctx w)); done. Qed.

Lemma accepted_persisted (w : World) :
  bool_decide (status (ctx w) = Active ∧ fenceHolds w) = true →
  status (ctx w) = Active ∧ fenceHolds w.
Proof. apply bool_decide_eq_true. Qed.

(** A stale update changes nothing at all: no record, no status, no
    request. *)
Lemma ack_stale (u : AckUpdate) (w : World) :
  stale u w = true → snd (call (ackCall u) w) = w.
Proof.
  destruct u; simpl; intros Hs; unfold gated; try destruct (errorByState (ctx w));
    simpl; by rewrite ?Hs.
Qed.

(** An update that is not stale is recorded as it came, when it reaches the
    record. *)
Lemma ack_fresh (u : AckUpdate) (w : World) :
  stale u w = false →
  recorded u (snd (call (ackCall u) w)) =
    if accepted u w then Some (incoming u) else recorded u w.
Proof.
  destruct u; simpl; intros Hs.
  - rewrite Hs. unfold recorded. simpl. by rewrite lookup_insert_eq.
  - destruct (decide (status (ctx w) = Active)) as [Ha | Ha].
    + rewrite gated_active by done. rewrite Hs.
      destruct (decide (fenceHolds w)) as [Hf | Hf].
      * rewrite bool_decide_eq_true_2 by done.
        rewrite persistShardInfo_accepted by done. unfold recorded. simpl.
        by rewrite lookup_insert_eq.
      * rewrite bool_decide_eq_false_2 by tauto.
        rewrite persistShardInfo_rejected by done. done.
    + rewrite bool_decide_eq_false_2 by tauto. by rewrite gated_inactive.
  - destruct (decide (status (ctx w) = Active)) as [Ha | Ha].
    + rewrite gated_active by done. rewrite Hs.
      destruct (decide (fenceHolds w)) as [Hf | Hf].
      * rewrite bool_decide_eq_true_2 by done.
        rewrite persistShardInfo_accepted by done. unfold recorded. simpl.
        by rewrite lookup_insert_eq.
      * rewrite bool_decide_eq_false_2 by tauto.
        rewrite persistShardInfo_rejected by done. done.
    + rewrite bool_decide_eq_false_2 by tauto. by rewrite gated_inactive.
Qed.

(** An update leaves every other key as it was. *)
Lemma ack_frame (u : AckUpdate) (k : AckKey) (w : World) :
  k ≠ keyOf u → recordedAt k (snd (call (ackCall u) w)) = recordedAt k w.
Proof.
  intros Hk.
  assert (Hp : ∀ i, recordedAt k (withCtx (setShardInfo i (ctx w)) w) = recordedAt k w →
                    recordedAt k (snd (persistShardInfo i w)) = recordedAt k w).
  { intros i Hi. destruct (decide (fenceHolds w)) as [Hf | Hf].
    - rewrite persistShardInfo_accepted by done. exact Hi.
    - rewrite persistShardInfo_rejected by done. by destruct k. }
  destruct u; simpl in *.
  - destruct (staleAck _ _ _); [done |]. destruct k; simpl; try done.
    rewrite lookup_insert_ne; [done | congruence].
  - destruct (decide (status (ctx w) = Active)) as [Ha | Ha];
      [| by rewrite gated_inactive].
    rewrite gated_active by done. destruct (staleLevel _ _); [done |].
    apply Hp. destruct k; simpl; try done.
    rewrite lookup_insert_ne; [done | congruence].
  - destruct (decide (status (ctx w) = Active)) as [Ha | Ha];
      [| by rewrite gated_inactive].
    rewrite gated_active by done. destruct (staleAck _ _ _); [done |].
    apply Hp. destruct k; simpl; try done.
    rewrite lookup_insert_ne; [done | congruence].
Qed.

(** The same update a second time changes neither the Context nor the
    store. *)
Lemma ack_again (u : AckUpdate) (w : World) :
  let w' := snd (call (ackCall u) w) in
  ctx (snd (call (ackCall u) w')) = ctx w' ∧ store (snd (call (ackCall u) w')) = store w'.
Proof.
  cbv zeta. destruct (stale u w) eqn:Hs.
  { rewrite (ack_stale u w Hs). by rewrite (ack_stale u w Hs). }
  destruct u; simpl in *.
  - rewrite Hs. simpl. rewrite lookup_insert_eq. simpl.
    rewrite !Z.ltb_irrefl. simpl. by rewrite insert_insert_eq.
  - destruct (decide (status (ctx w) = Active)) as [Ha | Ha];
      [| by rewrite !gated_inactive by (by rewrite ?gated_inactive)].
    rewrite (gated_active w) by done. rewrite Hs.
    destruct (decide (fenceHolds w)) as [Hf | Hf].
    + rewrite persistShardInfo_accepted by done. simpl.
      rewrite gated_active by done. simpl. rewrite lookup_insert_eq. simpl.
      rewrite Z.ltb_irrefl. rewrite persistShardInfo_accepted by done. simpl.
      unfold setShardInfo, setDlqAckLevels. simpl. by rewrite insert_insert_eq.
    + rewrite persistShardInfo_rejected by done. done.
  - destruct (decide (status (ctx w) = Active)) as [Ha | Ha];
      [| by rewrite !gated_inactive by (by rewrite ?gated_inactive)].
    rewrite (gated_active w) by done. rewrite Hs.
    destruct (decide (fenceHolds w)) as [Hf | Hf].
    + rewrite persistShardInfo_accepted by done. simpl.
      rewrite gated_active by done. simpl. rewrite lookup_insert_eq. simpl.
      rewrite !Z.ltb_irrefl. simpl. rewrite persistShardInfo_accepted by done. simpl.
      unfold setShardInfo, setReaderInfos. simpl. by rewrite insert_insert_eq.
    + rewrite persistShardInfo_rejected by done. done.
Qed.

(** *** Replication acknowledgements *)

(** C5: the three replication acknowledgement updates
    ([UpdateRemoteClusterInfo], [UpdateReplicatorDLQAckLevel],
    [UpdateRemoteReaderInfo]) are monotone per key and idempotent, and a
    stale one is ignored.  From a Context whose copy of the tracked state is
    the persisted one, over any run of events (calls of every kind, loads,
    acquisitions, competing owners) the level recorded under every key [k]
    only goes up.  One update [u]: when it is stale the whole world is left
    as it was (record, times, status, store, requests sent); when it is not,
    the recorded level becomes the incoming one if the update reaches the
    record and stays otherwise; every key other than its own keeps its
    level; a second application of the same update changes neither the
    Context nor the store.  And for each of the three updates, level 5 then
    level 3 under the same key leaves level 5 recorded and the second
    update changes nothing. *)
Theorem ack_updates_monotone_idempotent
    (evs : list Event) (k : AckKey) (u : AckUpdate) (w : World) :
  synced w →
  levelLe (recordedAt k w) (recordedAt k (snd (run evs w))) ∧
  (let w' := snd (call (ackCall u) w) in
   (if stale u w then w' = w
    else recorded u w' = if accepted u w then Some (incoming u) else recorded u w) ∧
   (if decide (k = keyOf u) then levelLe (recorded u w) (recorded u w')
    else recordedAt k w' = recordedAt k w) ∧
   ctx (snd (call (ackCall u) w')) = ctx w' ∧
   store (snd (call (ackCall u) w')) = store w') ∧
  Forall (λ '(first, second),
            let w1 := snd (call (ackCall first) ownedWorld) in
            recorded first ownedWorld = None ∧
            recorded first w1 = Some 5 ∧
            keyOf second = keyOf first ∧ incoming second = 3 ∧
            snd (call (ackCall second) w1) = w1)
    [(AckCluster "cluster-b" 5 1, AckCluster "cluster-b" 3 2);
     (AckDLQ "cluster-b" 5, AckDLQ "cluster-b" 3);
     (AckReader 1 5 1, AckReader 1 3 2)].
Proof.
  intros Hsync. split; [| split].
  - apply recordedAt_kept, run_kept, Hsync.
  - cbv zeta. split; [| split].
    + destruct (stale u w) eqn:Hs; [by apply ack_stale | by apply ack_fresh].
    + case_decide as Hk.
      * apply (recordedAt_kept (keyOf u)), call_kept.
      * by apply ack_frame.
    + apply ack_again.
  - repeat constructor; vm_compute; reflexivity.
Qed.

Lemma ack_updates_witness :
  let evs := [EvCall (UpdateRemoteReaderInfo 1 5 1); EvCompetingAcquire "host-b";
              EvCall (UpdateReplicatorDLQAckLevel "cluster-b" 7);
              EvCall (UpdateRemoteReaderInfo 1 3 2)] in
  synced watermark10World ∧
  levelLe (recordedAt (ReaderKey 1) watermark10World)
    (recordedAt (ReaderKey 1) (snd (run evs watermark10World))).
Proof.
  cbv zeta. split; [reflexivity |].
  exact (proj1 (ack_updates_monotone_idempotent _ (ReaderKey 1) (AckReader 1 3 2)
                  watermark10World eq_refl)).
Defined.

(** The same level at a later time is not stale: it is recorded, with its
    time; an earlier time is stale whatever its level. *)
Example same_level_later_time :
  let w1 := snd (call (UpdateRemoteClusterInfo "cluster-b" 100 1) ownedWorld) in
  let w2 := snd (call (UpdateRemoteClusterInfo "cluster-b" 100 2) w1) in
  remoteClusters (ctx w2) !! "cluster-b" = Some {| ackTaskID := 100; ackTimestamp := 2 |} ∧
  snd (call (UpdateRemoteClusterInfo "cluster-b" 200 1) w2) = w2.
Proof. vm_compute. split; reflexivity. Qed.

(** *** Queue state *)

(** A Context that loads the persisted record has the persisted tracked
    state. *)
Lemma loadShard_synced (w : World) :
  status (ctx w) = Initializing → synced (loadShard w).
Proof. unfold loadShard, synced. by intros ->. Qed.

(** C6: a queue reader's acknowledged watermark never decreases.  From a
    Context whose copy of the tracked state is the persisted one, over any
    run of events the persisted watermark of every reader of every category
    only goes up.  One [SetQueueState]: a Context that is not [Active]
    rejects it with its state's error and nothing changes; when the state
    carries a lower watermark than the persisted one the call is a no-op,
    returning without error and leaving the whole world as it was; otherwise
    the write is fenced: accepted, the supplied state is the persisted one
    of the category, and rejected with [OwnershipLost], the store is as
    before and the Context is [Invalid]. *)
Theorem queue_watermark_never_decreases
    (evs : list Event) (category : Category) (reader : Z)
    (tasksCompleted : Z) (state : QueueState) (w : World) :
  synced w →
  levelLe (persistedWatermark (store w) category reader)
    (persistedWatermark (store (snd (run evs w))) category reader) ∧
  (let r := fst (call (SetQueueState category tasksCompleted state) w) in
   let w' := snd (call (SetQueueState category tasksCompleted state) w) in
   let lower := lowersWatermark (queueStates (persistedInfo (store w)) !! category) state in
   (if lower then ((∃ e, r = Failed e) ∨ r = Returned VUnit) ∧ w' = w else True) ∧
   match errorByState (ctx w) with
   | Some e => r = Failed e ∧ w' = w
   | None =>
       if lower then r = Returned VUnit ∧ w' = w
       else if decide (fenceHolds w)
            then r = Returned VUnit ∧
                 queueStates (persistedInfo (store w')) !! category = Some state ∧
                 (∀ rd, persistedWatermark (store w') category rd =
                        ackWatermark <$> readerStates state !! rd) ∧
                 synced w'
            else r = Failed OwnershipLost ∧ store w' = store w ∧
                 status (ctx w') = Invalid
   end).
Proof.
  intros Hsync. split.
  - destruct (run_kept evs w Hsync) as ((Hw & _) & _ & Hs).
    unfold persistedWatermark. rewrite <- Hsync, <- (Hs Hsync). apply Hw.
  - cbv zeta. rewrite <- Hsync. simpl. unfold gated.
    destruct (errorByState (ctx w)) as [e|]; simpl.
    { split; [| done]. destruct (lowersWatermark _ _); eauto. }
    destruct (lowersWatermark _ _) eqn:Hl; simpl.
    { split; [| done]. split; [by right | done]. }
    split; [done |]. case_decide as Hf.
    + rewrite persistShardInfo_accepted by done. simpl.
      split; [done |]. rewrite lookup_insert_eq. split; [done |]. split; [| done].
      intros rd. unfold persistedWatermark, watermarkOf. simpl.
      by rewrite lookup_insert_eq.
    + rewrite persistShardInfo_rejected by done. done.
Qed.

Lemma queue_watermark_witness :
  let evs := [EvCall (SetQueueState CategoryTransfer 0 (readerAt 5));
              EvCall (SetQueueState CategoryTransfer 0 (readerAt 12));
              EvCompetingAcquire "host-b";
              EvCall (SetQueueState CategoryTransfer 0 (readerAt 20))] in
  synced watermark10World ∧
  levelLe (persistedWatermark (store watermark10World) CategoryTransfer 0)
    (persistedWatermark (store (snd (run evs watermark10World))) CategoryTransfer 0).
Proof.
  cbv zeta. split; [reflexivity |].
  exact (proj1 (queue_watermark_never_decreases _ CategoryTransfer 0 0 (readerAt 5)
                  watermark10World eq_refl)).
Defined.

(** With watermark 10 persisted: watermark 5 is a no-op, watermark 12 is
    persisted, and a state that drops the reader is a no-op too. *)
Example watermark_10_then_5_then_12 :
  let set wm := SetQueueState CategoryTransfer 0 (readerAt wm) in
  persistedWatermark (store watermark10World) CategoryTransfer 0 = Some 10 ∧
  call (set 5) watermark10World = (Returned VUnit, watermark10World) ∧
  persistedWatermark (store (snd (call (set 12) watermark10World))) CategoryTransfer 0
    = Some 12 ∧
  call (SetQueueState CategoryTransfer 0 freshQueueState) watermark10World
    = (Returned VUnit, watermark10World).
Proof. vm_compute. repeat split; reflexivity. Qed.

End ShardProofs.
